(** * pyomechanics: marker synthesis, segment frames and joint angles

    A shallow embedding of [pyomechanics/utils.py], [pyomechanics/body.py]
    and of the composition made by [scripts/compute_joint_angles.py].

    Numbers.  numpy's float64 cells are modelled by [float]: a real number
    or the not-a-number value.  Arithmetic on defined values is exact;
    [NaN] is absorbing and every comparison with it is false, as in
    IEEE 754.  Infinities are not modelled: the only divisions of the
    code are by a vector's own norm and by a number of parents, where a
    zero divisor comes with a zero dividend (0/0, which is NaN). *)

From Stdlib Require Import Reals Lra List String Bool ZArith Lia.
Import ListNotations.

Set Implicit Arguments.

(* ================================================================= *)
(** ** float64 cells *)

Module Float64.

Inductive float : Type :=
| NaN : float
| Fin : R -> float.


Definition lift2 (f : R -> R -> R) (x y : float) : float :=
  match x, y with
  | Fin a, Fin b => Fin (f a b)
  | _, _ => NaN
  end.

Definition add : float -> float -> float := lift2 Rplus.
Definition sub : float -> float -> float := lift2 Rminus.
Definition mul : float -> float -> float := lift2 Rmult.

Definition neg (x : float) : float :=
  match x with Fin a => Fin (- a) | NaN => NaN end.

(** [x / y]; a zero divisor gives [NaN]. *)
Definition div (x y : float) : float :=
  match x, y with
  | Fin a, Fin b => if Req_dec_T b 0 then NaN else Fin (a / b)
  | _, _ => NaN
  end.


(** [x > y] as numpy evaluates it: false when either side is NaN. *)
Definition gt (x y : float) : bool :=
  match x, y with
  | Fin a, Fin b => if Rlt_dec b a then true else false
  | _, _ => false
  end.

(** A Python int used in float arithmetic. *)
Definition of_int (z : Z) : float := Fin (IZR z).

End Float64.

Import Float64.

(* ================================================================= *)
(** ** numpy rows of three cells: a 3D point, a vector, an angle triple *)

Definition vec3 : Type := (float * float * float)%type.

(** [v[axis]] for [axis] in 0..2. *)
Definition axis_get (axis : nat) (v : vec3) : float :=
  let '(a, b, c) := v in
  match axis with
  | O => a
  | S O => b
  | _ => c
  end.

(** [v[axis] = x]. *)
Definition axis_set (axis : nat) (x : float) (v : vec3) : vec3 :=
  let '(a, b, c) := v in
  match axis with
  | O => (x, b, c)
  | S O => (a, x, c)
  | _ => (a, b, x)
  end.

Definition tuple_get (axis : nat) (t : Z * Z * Z) : Z :=
  let '(a, b, c) := t in
  match axis with
  | O => a
  | S O => b
  | _ => c
  end.

(** [arr[:, axis] = f(arr[:, axis])]: one column of an N x 3 array is
    rewritten, sample by sample. *)
Definition map_col (axis : nat) (f : float -> float) (arr : list vec3)
  : list vec3 :=
  map (fun row => axis_set axis (f (axis_get axis row)) row) arr.

Definition nan3 : vec3 := (NaN, NaN, NaN).

Definition vadd (u v : vec3) : vec3 :=
  let '(a, b, c) := u in let '(x, y, z) := v in (add a x, add b y, add c z).

Definition vsub (u v : vec3) : vec3 :=
  let '(a, b, c) := u in let '(x, y, z) := v in (sub a x, sub b y, sub c z).

Definition vneg (u : vec3) : vec3 :=
  let '(a, b, c) := u in (neg a, neg b, neg c).

(** Every cell of the row divided by the same scalar. *)
Definition vdiv (u : vec3) (s : float) : vec3 :=
  let '(a, b, c) := u in (div a s, div b s, div c s).

Definition dot (u v : vec3) : float :=
  let '(a, b, c) := u in let '(x, y, z) := v in
  add (add (mul a x) (mul b y)) (mul c z).




Definition vec_defined (u : vec3) : Prop :=
  exists a b c : R, u = (Fin a, Fin b, Fin c).

(** [zip] that stops at the shorter array (the arrays of one trial all
    have the length of its time axis). *)
Fixpoint zip_with (A B C : Type) (f : A -> B -> C) (l : list A) (m : list B)
  : list C :=
  match l, m with
  | a :: l', b :: m' => f a b :: zip_with f l' m'
  | _, _ => []
  end.

(* ================================================================= *)
(** ** Exceptions and Python dictionaries *)

Inductive exn : Type :=
| KeyError (key : string)          (* [d[key]] on an absent key *)
| IndexError                       (* [l[0]] on an empty list *)
| NetworkXError (node : string)    (* a graph query on an absent node *)
| ValueError                       (* an array of the wrong shape *)
| ConfigurationError.              (* a Part with no usable pair of directives *)

Definition result (A : Type) : Type := (exn + A)%type.

Definition bind (A B : Type) (m : result A) (k : A -> result B) : result B :=
  match m with
  | inl e => inl e
  | inr a => k a
  end.

Notation "x <- m ;; k" := (bind m (fun x => k))
  (at level 61, m at next level, right associativity).

(** [[f(x) for x in l]], stopping at the first exception. *)
Fixpoint mapM (A B : Type) (f : A -> result B) (l : list A) : result (list B) :=
  match l with
  | [] => inr []
  | a :: l' => b <- f a ;; bs <- mapM f l' ;; inr (b :: bs)
  end.

(** A dict keeps its keys in insertion order, which the marker graph
    observes: an association list, searched from the front. *)
Definition dict (V : Type) : Type := list (string * V).

Section Dict.
Variable V : Type.

Definition keys (d : dict V) : list string := map fst d.

Fixpoint lookup (d : dict V) (k : string) : option V :=
  match d with
  | [] => None
  | (k', v) :: d' => if String.eqb k' k then Some v else lookup d' k
  end.

(** [k in d] *)
Definition contains (d : dict V) (k : string) : bool :=
  existsb (String.eqb k) (keys d).

(** [d[k]] *)
Definition getitem (d : dict V) (k : string) : result V :=
  match lookup d k with
  | Some v => inr v
  | None => inl (KeyError k)
  end.

(** [d[k] = v]: a present key keeps its place, a new one goes last. *)
Fixpoint setitem (d : dict V) (k : string) (v : V) : dict V :=
  match d with
  | [] => [(k, v)]
  | (k', v') :: d' =>
      if String.eqb k' k then (k, v) :: d' else (k', v') :: setitem d' k v
  end.

(** [d.pop(k)] without its result. *)
Definition pop (d : dict V) (k : string) : dict V :=
  filter (fun kv => negb (String.eqb (fst kv) k)) d.

(** [TimeSeries.add_data(k, v, overwrite=True)] *)
Definition add_data (d : dict V) (k : string) (v : V) : dict V :=
  setitem d k v.

(** [TimeSeries.rename_data(old, new)]: [data[new] = data.pop(old)]. *)
Definition rename_data (d : dict V) (old new : string) : result (dict V) :=
  v <- getitem d old ;; inr (setitem (pop d old) new v).
End Dict.

(** The marker channels of one trial: a name gives an N x 3 array of
    positions, one row per time sample. *)
Definition TimeSeries : Type := dict (list vec3).

(* ================================================================= *)
(** ** utils.py *)

(** [networkx.DiGraph] as far as the code uses it: the nodes in
    insertion order, each with its [is_custom] attribute, and the edges
    in insertion order. *)
Record DiGraph : Type := {
  nodes : list (string * bool);
  edges : list (string * string)
}.

Definition empty_graph : DiGraph := {| nodes := []; edges := [] |}.

Definition has_node (g : DiGraph) (n : string) : bool :=
  existsb (fun p => String.eqb (fst p) n) (nodes g).

Definition has_edge (g : DiGraph) (u v : string) : bool :=
  existsb (fun e => String.eqb (fst e) u && String.eqb (snd e) v) (edges g).

(** [g.add_node(n)]; [g.add_node(n, is_custom=True)] when [custom]. An
    existing node keeps its place and only has the attribute updated. *)
Definition add_node (custom : bool) (g : DiGraph) (n : string) : DiGraph :=
  if has_node g n then
    if custom then
      {| nodes := map (fun p => if String.eqb (fst p) n then (fst p, true) else p)
                      (nodes g);
         edges := edges g |}
    else g
  else {| nodes := nodes g ++ [(n, custom)]; edges := edges g |}.

Definition add_nodes_from (names : list string) (custom : bool) (g : DiGraph)
  : DiGraph :=
  fold_left (add_node custom) names g.

Definition add_edge (g : DiGraph) (e : string * string) : DiGraph :=
  let g1 := add_node false g (fst e) in
  let g2 := add_node false g1 (snd e) in
  if has_edge g2 (fst e) (snd e) then g2
  else {| nodes := nodes g2; edges := edges g2 ++ [e] |}.

Definition add_edges_from (es : list (string * string)) (g : DiGraph)
  : DiGraph :=
  fold_left add_edge es g.

(** [g.predecessors(n)] *)
Definition predecessors (g : DiGraph) (n : string) : result (list string) :=
  if has_node g n then
    inr (map fst (filter (fun e => String.eqb (snd e) n) (edges g)))
  else inl (NetworkXError n).

Local Open Scope string_scope.

Definition custom_nodes : list string :=
  [ "torso_m"; "thorax_m"; "shoulder_r"; "shoulder_l"; "elbow_r"; "elbow_l";
    "scapula_r"; "scapula_l"; "wrist_r"; "wrist_l"; "hip_r"; "hip_l";
    "pelvis_m"; "knee_r"; "knee_l"; "ankle_r"; "ankle_l"; "heel_r"; "heel_l" ].

Definition marker_edges : list (string * string) :=
  [ ("RSHO", "torso_m"); ("LSHO", "torso_m");
    ("T10", "thorax_m"); ("STRN", "thorax_m");
    ("RSHO", "shoulder_r"); ("LSHO", "shoulder_l");
    ("RELB", "elbow_r"); ("RMELB", "elbow_r");
    ("LELB", "elbow_l"); ("LMELB", "elbow_l");
    ("RSHO", "scapula_r"); ("torso_m", "scapula_r");
    ("LSHO", "scapula_l"); ("torso_m", "scapula_l");
    ("RWRA", "wrist_r"); ("RWRB", "wrist_r");
    ("LWRA", "wrist_l");
    ("RASI", "hip_r"); ("RPSI", "hip_r");
    ("LASI", "hip_l"); ("LPSI", "hip_l");
    ("hip_l", "pelvis_m"); ("hip_r", "pelvis_m");
    ("RKNE", "knee_r"); ("RMKNE", "knee_r");
    ("LKNE", "knee_l"); ("LMKNE", "knee_l");
    ("RANK", "ankle_r"); ("RMANK", "ankle_r");
    ("LANK", "ankle_l"); ("LMANK", "ankle_l");
    ("RHEE", "heel_r"); ("LHEE", "heel_l") ].

Definition generate_marker_graph (marker_names : list string) : DiGraph :=
  let g := empty_graph in
  let g := add_nodes_from marker_names false g in
  let g := add_nodes_from custom_nodes true g in
  add_edges_from marker_edges g.

(** [np.mean(arrays, axis=0)] over a list of N x 3 arrays: the arrays are
    added up in order and every cell is divided by their number.  Arrays
    of different lengths do not stack into one array (ValueError).  Of
    no array at all numpy returns, with a warning, a bare NaN, which is
    no N x 3 array and cannot stand for a channel: that case is reported
    as an error here, and no node of the marker graph reaches it
    ([parents_nonempty]). *)
Definition np_mean (arrays : list (list vec3)) : result (list vec3) :=
  match arrays with
  | [] => inl ValueError
  | a :: rest =>
      if forallb (fun b => Nat.eqb (List.length b) (List.length a)) rest then
        inr (map (fun s => vdiv s (of_int (Z.of_nat (List.length arrays))))
                 (fold_left (zip_with vadd) rest a))
      else inl ValueError
  end.

Fixpoint add_custom_markers (g : DiGraph) (markers : TimeSeries)
    (part_names : list string) : result TimeSeries :=
  match part_names with
  | [] => inr markers
  | part_name :: rest =>
      if contains markers part_name then
        match filter (fun name => String.eqb name part_name) (keys markers) with
        | marker_name :: _ =>
            markers' <- rename_data markers marker_name part_name ;;
            add_custom_markers g markers' rest
        | [] => inl IndexError
        end
      else
        part_name_parents <- predecessors g part_name ;;
        arrays <- mapM (getitem markers) part_name_parents ;;
        part_name_parents_avg <- np_mean arrays ;;
        add_custom_markers g (add_data markers part_name part_name_parents_avg) rest
  end.



(** scripts/compute_joint_angles.py, lines 30-32: the graph is built from
    the trial's own channel names, and the nodes carrying [is_custom] are
    handed to [add_custom_markers] in the graph's node order. *)
Definition custom_part_names (g : DiGraph) : list string :=
  map fst (filter (fun p => snd p) (nodes g)).

Definition synthesize (markers : TimeSeries) : result TimeSeries :=
  let g := generate_marker_graph (keys markers) in
  let part_names := custom_part_names g in
  add_custom_markers g markers part_names.

(* ================================================================= *)
(** ** Segment frames and the kineticstoolkit geometry the code calls *)

(** One rigid-body pose: the three unit axes of the segment (the columns
    of the rotation) and its origin.  The constant fourth row of the
    4 x 4 homogeneous matrix is left out. *)
Record pose : Type := {
  x_axis : vec3;
  y_axis : vec3;
  z_axis : vec3;
  position : vec3
}.

(** The frame channels of one trial ([<part>_frames] in the same
    TimeSeries, kept here in a store of their own type). *)
Definition FrameSeries : Type := dict (list pose).




(** The transpose of the rotation applied to a vector. *)
Definition rot_T_vec (p : pose) (v : vec3) : vec3 :=
  (dot (x_axis p) v, dot (y_axis p) v, dot (z_axis p) v).

(** The rotation applied to a vector. *)
Definition rot_vec (p : pose) (v : vec3) : vec3 :=
  let '(a, b, c) := v in
  let '(x1, x2, x3) := x_axis p in
  let '(y1, y2, y3) := y_axis p in
  let '(z1, z2, z3) := z_axis p in
  (add (add (mul x1 a) (mul y1 b)) (mul z1 c),
   add (add (mul x2 a) (mul y2 b)) (mul z2 c),
   add (add (mul x3 a) (mul y3 b)) (mul z3 c)).

(** The product of two homogeneous transforms. *)
Definition compose (a b : pose) : pose :=
  {| x_axis := rot_vec a (x_axis b);
     y_axis := rot_vec a (y_axis b);
     z_axis := rot_vec a (z_axis b);
     position := vadd (rot_vec a (position b)) (position a) |}.

(** The inverse of a rigid transform: the transposed rotation, and the
    transposed rotation applied to the opposite of the translation. *)
Definition inv_pose (p : pose) : pose :=
  let '(x1, x2, x3) := x_axis p in
  let '(y1, y2, y3) := y_axis p in
  let '(z1, z2, z3) := z_axis p in
  {| x_axis := (x1, y1, z1);
     y_axis := (x2, y2, z2);
     z_axis := (x3, y3, z3);
     position := rot_T_vec p (vneg (position p)) |}.

(** Modelled from the spec: [ktk.geometry.get_local_coordinates] is a
    function of the kineticstoolkit library, absent from the sources.
    Section 4.3: the global pose expressed in the reference frame, the
    inverse of the reference transform times the global transform. *)
Definition local_coordinates (global reference : pose) : pose :=
  compose (inv_pose reference) global.

Definition get_local_coordinates (global_coordinates reference_frames : list pose)
  : list pose :=
  zip_with local_coordinates global_coordinates reference_frames.

(* ================================================================= *)
(** ** body.py *)

Record Part : Type := {
  name : string;
  origin : string;
  y_direction : option (string * string);
  yz_direction : option (string * string);
  x_direction : option (string * string);
  xz_direction : option (string * string)
}.

Definition axis_frames_name (p : Part) : string := name p ++ "_frames".



Inductive JointClass : Type :=
| Shoulder | Elbow | Wrist | Hip | Knee | Ankle.

Record Joint : Type := {
  cls : JointClass;
  proximal : Part;
  distal : Part;
  side : option string
}.

Definition angle_seq (c : JointClass) : string :=
  match c with
  | Shoulder => "YXY"
  | _ => "ZXY"
  end.

(** [self.side == s]; a joint without a side equals no string. *)
Definition side_is (sd : option string) (s : string) : bool :=
  match sd with
  | Some t => String.eqb t s
  | None => false
  end.

Definition transforms (self : Joint) (ts : FrameSeries) : result (list pose) :=
  d <- getitem ts (axis_frames_name (distal self)) ;;
  p <- getitem ts (axis_frames_name (proximal self)) ;;
  inr (get_local_coordinates d p).

Local Open Scope Z_scope.

(** The default values of the parameters [signs] and [adjustments] of
    each class's [angles]. *)
Definition default_signs (c : JointClass) : Z * Z * Z :=
  match c with
  | Shoulder => (1, 1, 1)
  | Elbow => (1, 1, 1)
  | Wrist => (1, -1, 1)
  | Hip => (-1, 1, 1)
  | Knee => (1, 1, 1)
  | Ankle => (1, 1, -1)
  end.


(** The [if self.side == ...: signs = ...] statement that opens each
    class's [angles]. *)
Definition select_signs (c : JointClass) (sd : option string)
    (batter_hand : string) (signs : Z * Z * Z) : Z * Z * Z :=
  match c with
  | Shoulder => if side_is sd "R" then (-1, 1, -1) else signs
  | Elbow =>
      if side_is sd "R" then (-1, 1, 1)
      else if side_is sd "L" then (1, 1, -1)
      else signs
  | Wrist => if side_is sd batter_hand then (-1, -1, 1) else signs
  | Hip => if side_is sd "L" then (1, 1, -1) else signs
  | Knee => if side_is sd "L" then (-1, 1, 1) else signs
  | Ankle => if side_is sd "L" then (1, 1, 1) else signs
  end.

(** [a * sign + adjustment] for the sign and the adjustment of [axis]. *)
Definition signed (signs adjustments : Z * Z * Z) (axis : nat) (a : float)
  : float :=
  add (mul a (of_int (tuple_get axis signs)))
      (of_int (tuple_get axis adjustments)).

(** The loop of [Joint.angles]:
    [angles[:, axis] = angles[:, axis] * sign + adjustment]. *)
Definition apply_signs (angles : list vec3) (signs adjustments : Z * Z * Z)
  : list vec3 :=
  fold_left
    (fun ang axis => map_col axis (signed signs adjustments axis) ang)
    [0; 1; 2]%nat angles.

(** [angles[angles[:, 2] > 340, 2] = angles[angles[:, 2] > 340, 2] - 360] *)
Definition unwrap_340 (a : float) : float :=
  if gt a (of_int 340) then sub a (of_int 360) else a.

(** The post-corrections that close each class's [angles]. *)
Definition post_correct (c : JointClass) (angles : list vec3) : list vec3 :=
  match c with
  | Elbow =>
      let angles := map_col 1 (fun _ => of_int 0) angles in
      map_col 2 unwrap_340 angles
  | Wrist => map_col 2 (fun _ => of_int 0) angles
  | Knee =>
      let angles := map_col 1 (fun _ => of_int 0) angles in
      map_col 2 (fun _ => of_int 0) angles
  | _ => angles
  end.

Section Angles.
(** [ktk.geometry.get_angles(T, seq, degrees=True)], the Euler
    decomposition of kineticstoolkit: an N x 3 array of angles. *)
Variable get_angles : list pose -> string -> list vec3.

(** [Joint.angles] *)
Definition Joint_angles (self : Joint) (ts : FrameSeries)
    (signs adjustments : Z * Z * Z) (batter_hand : string)
  : result (list vec3) :=
  T <- transforms self ts ;;
  inr (apply_signs (get_angles T (angle_seq (cls self))) signs adjustments).

(** [angles] of the class of [self]: the side-dependent signs, the
    inherited [Joint.angles], then the class's post-corrections. *)
Definition angles (self : Joint) (ts : FrameSeries)
    (signs adjustments : Z * Z * Z) (batter_hand : string)
  : result (list vec3) :=
  let signs := select_signs (cls self) (side self) batter_hand signs in
  a <- Joint_angles self ts signs adjustments batter_hand ;;
  inr (post_correct (cls self) a).

End Angles.

Local Close Scope Z_scope.

Definition mkPart (n o : string) (y yz x xz : option (string * string)) : Part :=
  {| name := n; origin := o; y_direction := y; yz_direction := yz;
     x_direction := x; xz_direction := xz |}.

(* upper body *)
Definition scapula_right := mkPart "scapula_r" "scapula_r"
  (Some ("torso_m", "thorax_m")) (Some ("torso_m", "RSHO")) None None.
Definition scapula_left := mkPart "scapula_l" "scapula_l"
  (Some ("torso_m", "thorax_m")) (Some ("torso_m", "LSHO")) None None.
Definition upper_arm_right := mkPart "upper_arm_r" "RSHO"
  (Some ("RSHO", "elbow_r")) (Some ("RMELB", "RELB")) None None.
Definition upper_arm_left := mkPart "upper_arm_l" "LSHO"
  (Some ("LSHO", "elbow_l")) (Some ("LMELB", "LELB")) None None.
Definition forearm_right := mkPart "forearm_r" "wrist_r"
  (Some ("elbow_r", "wrist_r")) (Some ("RWRA", "RWRB")) None None.
Definition forearm_left := mkPart "forearm_l" "wrist_l"
  (Some ("elbow_l", "wrist_l")) (Some ("LWRA", "LWRB")) None None.
Definition hand_right := mkPart "hand_r" "RFIN"
  (Some ("wrist_r", "RFIN")) (Some ("RWRA", "RWRB")) None None.
Definition hand_left := mkPart "hand_l" "LFIN"
  (Some ("wrist_l", "LFIN")) (Some ("LWRA", "LWRB")) None None.
Definition upper_body_parts : list Part :=
  [ scapula_right; scapula_left; upper_arm_right; upper_arm_left;
    forearm_right; forearm_left; hand_right; hand_left ].

(* lower body *)
Definition hip_right := mkPart "hip_r" "hip_r"
  (Some ("thorax_m", "pelvis_m")) (Some ("pelvis_m", "hip_r")) None None.
Definition hip_left := mkPart "hip_l" "hip_l"
  (Some ("thorax_m", "pelvis_m")) (Some ("pelvis_m", "hip_l")) None None.
Definition upper_leg_right := mkPart "upper_leg_r" "RTHI"
  (Some ("hip_r", "knee_r")) (Some ("RMKNE", "RKNE")) None None.
Definition upper_leg_left := mkPart "upper_leg_l" "LTHI"
  (Some ("hip_l", "knee_l")) (Some ("LMKNE", "LKNE")) None None.
Definition lower_leg_right := mkPart "lower_leg_r" "RTIB"
  (Some ("knee_r", "ankle_r")) (Some ("RANK", "RMANK")) None None.
Definition lower_leg_left := mkPart "lower_leg_l" "LTIB"
  (Some ("knee_l", "ankle_l")) (Some ("LANK", "LMANK")) None None.
Definition heel_right := mkPart "heel_r" "RHEE"
  (Some ("RTIB", "RHEE")) (Some ("RANK", "RMANK")) None None.
Definition heel_left := mkPart "heel_l" "LHEE"
  (Some ("LTIB", "LHEE")) (Some ("LMANK", "LANK")) None None.
Definition foot_right := mkPart "foot_r" "RTOE"
  None None (Some ("RTOE", "RHEE")) (Some ("RANK", "RMANK")).
Definition foot_left := mkPart "foot_l" "LTOE"
  None None (Some ("LTOE", "LHEE")) (Some ("LMANK", "LANK")).
Definition lower_body_parts : list Part :=
  [ hip_right; hip_left; upper_leg_right; upper_leg_left;
    lower_leg_right; lower_leg_left; foot_right; foot_left;
    heel_right; heel_left ].

Definition parts : list Part := upper_body_parts ++ lower_body_parts.

Definition mkJoint (c : JointClass) (p d : Part) (s : string) : Joint :=
  {| cls := c; proximal := p; distal := d; side := Some s |}.

(* upper body *)
Definition shoulder_joint_right := mkJoint Shoulder scapula_right upper_arm_right "R".
Definition shoulder_joint_left := mkJoint Shoulder scapula_left upper_arm_left "L".
Definition elbow_joint_right := mkJoint Elbow upper_arm_right forearm_right "R".
Definition elbow_joint_left := mkJoint Elbow upper_arm_left forearm_left "L".
Definition wrist_joint_right := mkJoint Wrist forearm_right hand_right "R".
Definition wrist_joint_left := mkJoint Wrist forearm_left hand_left "L".
Definition upper_body_joints : list Joint :=
  [ shoulder_joint_right; shoulder_joint_left; elbow_joint_right;
    elbow_joint_left; wrist_joint_right; wrist_joint_left ].

(* lower body *)
Definition hip_joint_right := mkJoint Hip hip_right upper_leg_right "R".
Definition hip_joint_left := mkJoint Hip hip_left upper_leg_left "L".
Definition knee_joint_right := mkJoint Knee upper_leg_right lower_leg_right "R".
Definition knee_joint_left := mkJoint Knee upper_leg_left lower_leg_left "L".
Definition ankle_joint_right := mkJoint Ankle heel_right foot_right "R".
Definition ankle_joint_left := mkJoint Ankle heel_left foot_left "L".
Definition lower_body_joints : list Joint :=
  [ hip_joint_right; hip_joint_left; knee_joint_right; knee_joint_left;
    ankle_joint_right; ankle_joint_left ].

Definition joints : list Joint := upper_body_joints ++ lower_body_joints.

(* ================================================================= *)
(** ** Definitions used by the statements *)

(** One row of [Joint.angles]: every axis multiplied by its sign and
    shifted by its adjustment. *)
Definition sign_row (signs adjustments : Z * Z * Z) (r : vec3) : vec3 :=
  (signed signs adjustments 0 (axis_get 0 r),
   signed signs adjustments 1 (axis_get 1 r),
   signed signs adjustments 2 (axis_get 2 r)).

(** One row of the post-corrections of a class. *)
Definition post_row (c : JointClass) (r : vec3) : vec3 :=
  match c with
  | Elbow => (axis_get 0 r, of_int 0, unwrap_340 (axis_get 2 r))
  | Wrist => (axis_get 0 r, axis_get 1 r, of_int 0)
  | Knee => (axis_get 0 r, of_int 0, of_int 0)
  | _ => r
  end.


(** The class replaces the default sign vector of its [angles]. *)
Definition flips (c : JointClass) (sd : option string) (batter_hand : string)
  : Prop :=
  select_signs c sd batter_hand (default_signs c) <> default_signs c.

(** [u] comes before [v] in the list [l]. *)
Definition before (u v : string) (l : list string) : Prop :=
  exists l1 l2, l = (l1 ++ v :: l2)%list /\ In u l1.

(** The names processed by the synthesizer form a topological order of
    the graph: no edge goes from a later name to an earlier one. *)
Definition topological (g : DiGraph) (l : list string) : Prop :=
  forall u v, In (u, v) (edges g) -> In u l -> In v l -> before u v l.

(** The channel [k] of a trial, when it has one. *)
Definition channel (ts : TimeSeries) (k : string) : option (list vec3) :=
  lookup ts k.

(** The direct predecessors of [n] in the marker graph of the code. *)
Definition parents (n : string) : list string :=
  map fst (filter (fun e => String.eqb (snd e) n) marker_edges).

(** [x in l] for a list of names. *)
Definition mem (x : string) (l : list string) : bool :=
  existsb (String.eqb x) l.

(** [list(g.nodes)] *)
Definition node_names (g : DiGraph) : list string := map fst (nodes g).

(** What [add_edge] does to the list of edges. *)
Definition add_edge_list (E : list (string * string)) (e : string * string)
  : list (string * string) :=
  if existsb (fun e' => String.eqb (fst e') (fst e) && String.eqb (snd e') (snd e)) E
  then E else (E ++ [e])%list.

(** Every channel of [m] is a channel of [m'], with the same values. *)
Definition extends (m m' : TimeSeries) : Prop :=
  forall k x, lookup m k = Some x -> lookup m' k = Some x.

(** Every channel of the trial has [n] time samples. *)
Definition uniform (n : nat) (m : TimeSeries) : Prop :=
  Forall (fun kv => List.length (snd kv) = n) m.

(** Every name of [ps] that is not yet a channel of [m] has its parents
    in the graph, at least one, and each parent that is itself in [ps]
    is a channel already or comes earlier in [ps]. *)
Definition ordered (g : DiGraph) (m : TimeSeries) (ps : list string) : Prop :=
  forall v, In v ps -> ~ In v (keys m) ->
    exists par, predecessors g v = inr par /\ par <> [] /\
      forall p, In p par -> In p ps -> In p (keys m) \/ before p v ps.

(** The arithmetic mean of the positions of several markers at one
    sample. *)
Definition row_mean (rows : list vec3) : vec3 :=
  match rows with
  | [] => nan3
  | r :: rest =>
      vdiv (fold_left vadd rest r) (of_int (Z.of_nat (List.length rows)))
  end.

(** [rows] are the rows of the arrays [arrs] at the sample [i]. *)
Definition rows_at (i : nat) (arrs : list (list vec3)) (rows : list vec3)
  : Prop :=
  Forall2 (fun a r => nth_error a i = Some r) arrs rows.

(** The derived node [v] is not a channel of [m] and its parent [q], a
    real marker, is not one either. *)
Definition missing (m : TimeSeries) (v q : string) : Prop :=
  In v custom_nodes /\ ~ In v (keys m) /\ In q (parents v) /\
  ~ In q (keys m) /\ ~ In q custom_nodes.

(** [u] is found before the first [v] of [l]. *)
Fixpoint beforeb (u v : string) (l : list string) : bool :=
  match l with
  | [] => false
  | x :: l' =>
      if String.eqb x v then false
      else if String.eqb x u then mem v l'
      else beforeb u v l'
  end.

(** The real markers the graph names: the sources of its edges that are
    not derived nodes. *)
Definition real_markers : list string :=
  filter (fun n => negb (mem n custom_nodes))
         (nodup string_dec (map fst marker_edges)).

(* ================================================================= *)
(** ** Sample data *)

(** A pose with no defined cell, and the pose of the global frame. *)
Definition nan_pose : pose :=
  {| x_axis := nan3; y_axis := nan3; z_axis := nan3; position := nan3 |}.

Definition id_pose : pose :=
  {| x_axis := (Fin 1, Fin 0, Fin 0); y_axis := (Fin 0, Fin 1, Fin 0);
     z_axis := (Fin 0, Fin 0, Fin 1); position := (Fin 0, Fin 0, Fin 0) |}.

(** Two samples of the frames of the right arm; the second sample is
    undefined. *)
Definition elbow_frames_r : FrameSeries :=
  [("upper_arm_r_frames", [id_pose; nan_pose]);
   ("forearm_r_frames", [id_pose; nan_pose])].

Definition shoulder_frames_r : FrameSeries :=
  [("upper_arm_r_frames", [id_pose; nan_pose]);
   ("scapula_r_frames", [id_pose; nan_pose])].

(** A decomposition to run the joints on: no angle where the transform
    is undefined, the same three angles elsewhere. *)
Definition sample_angles (T : list pose) (seq : string) : list vec3 :=
  map (fun p => match x_axis p with
                | (NaN, _, _) => nan3
                | _ => (Fin 10, Fin 20, Fin 175)
                end) T.










Definition pt (x y z : Z) : vec3 := (of_int x, of_int y, of_int z).





(** Trials to run the synthesizer on: two samples for every channel. *)
Definition sample_channel (i : nat) : list vec3 :=
  [pt (Z.of_nat i) 0 1; pt (Z.of_nat i) 1 2]%Z.

Definition trial_of (names : list string) : TimeSeries :=
  map (fun p => (snd p, sample_channel (fst p)))
      (combine (seq 0 (List.length names)) names).

(** Every real marker of the graph; the same with a pelvis midpoint
    already among the channels; and a trial that has a thorax midpoint
    but not the marker T10 it is derived from. *)
Definition full_trial : TimeSeries := trial_of real_markers.

Definition pelvis_trial : TimeSeries := trial_of ("pelvis_m" :: real_markers).

Definition thorax_trial : TimeSeries :=
  trial_of ("thorax_m" ::
            filter (fun n => negb (String.eqb n "T10")) real_markers).

Definition series_or_nil (r : result TimeSeries) : TimeSeries :=
  match r with
  | inr m => m
  | inl _ => []
  end.





(* ================================================================= *)
(** * Properties *)

(** ** Joint angles, row by row *)

Lemma apply_signs_map angles s d :
  apply_signs angles s d = map (sign_row s d) angles.
Proof.
  unfold apply_signs, map_col, sign_row. simpl. rewrite !map_map.
  apply map_ext. intros [[x y] z]. reflexivity.
Qed.

Lemma post_correct_map c angles :
  post_correct c angles = map (post_row c) angles.
Proof.
  destruct c; unfold post_correct, post_row, map_col; simpl;
    rewrite ?map_map, ?map_id; try reflexivity;
    try (apply map_ext; intros [[x y] z]; reflexivity).
Qed.

Lemma angles_unfold get_angles self ts signs adjustments batter_hand T :
  transforms self ts = inr T ->
  angles get_angles self ts signs adjustments batter_hand =
  inr (map (fun r => post_row (cls self)
                      (sign_row (select_signs (cls self) (side self) batter_hand signs)
                                adjustments r))
           (get_angles T (angle_seq (cls self)))).
Proof.
  intros HT. unfold angles, Joint_angles. rewrite HT. simpl.
  rewrite apply_signs_map, post_correct_map, map_map. reflexivity.
Qed.

Lemma angles_error get_angles self ts signs adjustments batter_hand e :
  transforms self ts = inl e ->
  angles get_angles self ts signs adjustments batter_hand = inl e.
Proof. intros HT. unfold angles, Joint_angles. rewrite HT. reflexivity. Qed.

Lemma unwrap_340_above t : (340 < t)%R -> unwrap_340 (Fin t) = Fin (t - 360).
Proof.
  intros H. unfold unwrap_340, gt, of_int, sub, lift2.
  destruct (Rlt_dec 340 t) as [_|n]; [reflexivity | contradiction].
Qed.

Lemma unwrap_340_below t : (t <= 340)%R -> unwrap_340 (Fin t) = Fin t.
Proof.
  intros H. unfold unwrap_340, gt, of_int.
  destruct (Rlt_dec 340 t) as [l|_]; [lra | reflexivity].
Qed.

Lemma unwrap_340_nan : unwrap_340 NaN = NaN.
Proof. reflexivity. Qed.

Lemma side_is_true sd s : side_is sd s = true <-> sd = Some s.
Proof.
  destruct sd as [t|]; simpl.
  - rewrite String.eqb_eq. split; [intros ->; reflexivity | intros [= ->]; reflexivity].
  - split; discriminate.
Qed.

Lemma side_is_false sd s : side_is sd s = false <-> sd <> Some s.
Proof.
  rewrite <- side_is_true. destruct (side_is sd s); split; congruence.
Qed.

(** C3: the sign vector each class's [angles] works with.  Shoulder
    replaces it by (-1, 1, -1) on side "R"; Elbow by (-1, 1, 1) on side
    "R" and by (1, 1, -1) on side "L"; Wrist by (-1, -1, 1) when the side
    is the batter's hand; Hip by (1, 1, -1), Knee by (-1, 1, 1) and Ankle
    by (1, 1, 1) on side "L"; in every other case the vector passed in is
    kept.  With the declared defaults passed in, the vector differs from
    the default exactly in those cases. *)
Theorem C3_sign_rule sd batter_hand signs :
  select_signs Shoulder sd batter_hand signs =
    (if side_is sd "R" then (-1, 1, -1) else signs)%Z /\
  select_signs Elbow sd batter_hand signs =
    (if side_is sd "R" then (-1, 1, 1)
     else if side_is sd "L" then (1, 1, -1) else signs)%Z /\
  select_signs Wrist sd batter_hand signs =
    (if side_is sd batter_hand then (-1, -1, 1) else signs)%Z /\
  select_signs Hip sd batter_hand signs =
    (if side_is sd "L" then (1, 1, -1) else signs)%Z /\
  select_signs Knee sd batter_hand signs =
    (if side_is sd "L" then (-1, 1, 1) else signs)%Z /\
  select_signs Ankle sd batter_hand signs =
    (if side_is sd "L" then (1, 1, 1) else signs)%Z /\
  (flips Shoulder sd batter_hand <-> sd = Some "R") /\
  (flips Elbow sd batter_hand <-> sd = Some "R" \/ sd = Some "L") /\
  (flips Wrist sd batter_hand <-> sd = Some batter_hand) /\
  (flips Hip sd batter_hand <-> sd = Some "L") /\
  (flips Knee sd batter_hand <-> sd = Some "L") /\
  (flips Ankle sd batter_hand <-> sd = Some "L").
Proof.
  repeat (split; [reflexivity|]).
  unfold flips; simpl.
  assert (HR := side_is_true sd "R").
  assert (HL := side_is_true sd "L").
  assert (HB := side_is_true sd batter_hand).
  destruct (side_is sd "R"), (side_is sd "L"), (side_is sd batter_hand);
    repeat split; intros; try tauto; try congruence;
    try (exfalso; intuition congruence); intuition (try congruence).
Qed.

(** C3, the stated rule fails: a right ankle keeps the default signs, a
    left ankle and a left elbow do not. *)
Lemma C3_counterexample :
  ~ flips Ankle (Some "R") "R" /\
  flips Ankle (Some "L") "R" /\
  flips Elbow (Some "L") "R".
Proof.
  unfold flips; simpl. repeat split; congruence.
Qed.

(** C4: the rows of an Elbow's angles are the signed and adjusted rows
    with axis 0 kept, axis 1 set to 0 and axis 2 unwrapped; unwrapping
    subtracts 360 from a value above 340, which sends the values between
    340 and 360 to values between -20 and 0, and it changes no value up
    to 340 (339 and 340 among them) nor an undefined one. *)
Theorem C4_elbow_unwrap get_angles self ts signs adjustments batter_hand T
    (Hcls : cls self = Elbow) (HT : transforms self ts = inr T) :
  let s := select_signs Elbow (side self) batter_hand signs in
  angles get_angles self ts signs adjustments batter_hand =
    inr (map (fun r =>
                (signed s adjustments 0 (axis_get 0 r),
                 Fin 0,
                 unwrap_340 (signed s adjustments 2 (axis_get 2 r))))
             (get_angles T "ZXY")) /\
  (forall t : R, (340 < t)%R -> unwrap_340 (Fin t) = Fin (t - 360)) /\
  (forall t : R, (340 < t < 360)%R ->
     exists t' : R, unwrap_340 (Fin t) = Fin t' /\ (-20 < t' < 0)%R) /\
  (forall t : R, (t <= 340)%R -> unwrap_340 (Fin t) = Fin t) /\
  unwrap_340 (Fin 339) = Fin 339 /\
  unwrap_340 (Fin 340) = Fin 340 /\
  unwrap_340 NaN = NaN.
Proof.
  intros s. split.
  - erewrite angles_unfold by eassumption.
    rewrite Hcls. reflexivity.
  - split; [exact unwrap_340_above|].
    split.
    { intros t Ht. exists (t - 360)%R. split; [apply unwrap_340_above; lra | lra]. }
    split; [exact unwrap_340_below|].
    split; [apply unwrap_340_below; lra|].
    split; [apply unwrap_340_below; lra|reflexivity].
Qed.

(** C4 on the right elbow of the sample frames. *)
Lemma C4_elbow_unwrap_witness :
  angles sample_angles elbow_joint_right elbow_frames_r (1,1,1)%Z (0,0,180)%Z "R" =
    inr (map (fun r =>
                (signed (-1,1,1)%Z (0,0,180)%Z 0 (axis_get 0 r),
                 Fin 0,
                 unwrap_340 (signed (-1,1,1)%Z (0,0,180)%Z 2 (axis_get 2 r))))
             (sample_angles (get_local_coordinates [id_pose; nan_pose] [id_pose; nan_pose]) "ZXY")).
Proof.
  apply (@C4_elbow_unwrap sample_angles elbow_joint_right elbow_frames_r
           (1,1,1)%Z (0,0,180)%Z "R"
           (get_local_coordinates [id_pose; nan_pose] [id_pose; nan_pose])
           eq_refl eq_refl).
Defined.

Lemma nth_error_zip_with (A B C : Type) (f : A -> B -> C) l m i a b :
  nth_error l i = Some a -> nth_error m i = Some b ->
  nth_error (zip_with f l m) i = Some (f a b).
Proof.
  revert m i. induction l as [|x l IH]; intros [|y m] [|i]; simpl; try discriminate.
  - intros [= ->] [= ->]. reflexivity.
  - apply IH.
Qed.

Lemma vsub_nan p q : p = nan3 \/ q = nan3 -> vsub p q = nan3.
Proof.
  destruct p as [[a b] c], q as [[x y] z].
  intros [[= -> -> ->] | [= -> -> ->]]; simpl.
  - reflexivity.
  - destruct a, b, c; reflexivity.
Qed.

Lemma signed_nan s d axis : signed s d axis NaN = NaN.
Proof. reflexivity. Qed.



(** ** Undefined cells *)











(** ** The frames of a part, sample by sample *)

Lemma nth_error_zip_with_gen (A B C : Type) (f : A -> B -> C) l m j :
  nth_error (zip_with f l m) j =
  match nth_error l j, nth_error m j with
  | Some a, Some b => Some (f a b)
  | _, _ => None
  end.
Proof.
  revert m j. induction l as [|a l IH]; intros [|b m] [|j]; simpl; try reflexivity.
  - destruct (nth_error l j); reflexivity.
  - apply IH.
Qed.





(** C2: when the joint's transforms are found, [angles] returns one row
    for every row of the decomposition, whatever the frames and the
    decomposition hold, and at every sample the row of an Elbow is 0 on
    axis 1, the row of a Knee is 0 on axes 1 and 2, and the row of a
    Wrist is 0 on axis 2; [angles] fails only where the transforms do. *)
Theorem C2_forced_zero_axes get_angles self ts signs adjustments batter_hand :
  match transforms self ts with
  | inr T =>
      let raw := get_angles T (angle_seq (cls self)) in
      exists out,
        angles get_angles self ts signs adjustments batter_hand = inr out /\
        List.length out = List.length raw /\
        forall i, (i < List.length raw)%nat ->
          exists row, nth_error out i = Some row /\
            (cls self = Elbow -> axis_get 1 row = Fin 0) /\
            (cls self = Knee ->
               axis_get 1 row = Fin 0 /\ axis_get 2 row = Fin 0) /\
            (cls self = Wrist -> axis_get 2 row = Fin 0)
  | inl e => angles get_angles self ts signs adjustments batter_hand = inl e
  end.
Proof.
  destruct (transforms self ts) as [e|T] eqn:HT.
  - eapply angles_error. exact HT.
  - intros raw. eexists. split; [eapply angles_unfold; exact HT|].
    fold raw. split; [apply length_map|].
    intros i Hi. rewrite nth_error_map.
    destruct (nth_error raw i) as [r|] eqn:Hr.
    + eexists. split; [reflexivity|].
      split; [intros Hc; rewrite Hc; reflexivity|].
      split; [intros Hc; rewrite Hc; split; reflexivity|].
      intros Hc; rewrite Hc; reflexivity.
    + apply nth_error_None in Hr. lia.
Qed.

(** ** From the markers to the angles of a joint *)

Lemma transforms_lookup self (fs : FrameSeries) D P :
  lookup fs (axis_frames_name (distal self)) = Some D ->
  lookup fs (axis_frames_name (proximal self)) = Some P ->
  transforms self fs = inr (get_local_coordinates D P).
Proof. intros HD HP. unfold transforms, getitem. rewrite HD, HP. reflexivity. Qed.









(** * Marker synthesis *)

(** ** Dictionaries *)
Section DictFacts.
Variable V : Type.
Implicit Types (d : dict V) (k : string) (v : V).

Lemma contains_In d k : contains d k = true <-> In k (keys d).
Proof.
  unfold contains. rewrite existsb_exists. split.
  - intros [x [Hin Heq]]. apply String.eqb_eq in Heq. subst. exact Hin.
  - intros Hin. exists k. split; [exact Hin | apply String.eqb_refl].
Qed.

Lemma contains_false d k : contains d k = false <-> ~ In k (keys d).
Proof.
  rewrite <- contains_In. destruct (contains d k); split; congruence.
Qed.

Lemma lookup_In d k : In k (keys d) <-> exists v, lookup d k = Some v.
Proof.
  induction d as [|[k' v'] d IH]; simpl.
  - split; [tauto | intros [v H]; discriminate].
  - destruct (String.eqb_spec k' k) as [->|Hne].
    + split; [intros _; eauto | auto].
    + rewrite <- IH. split; [intros [H|H]; [contradiction|exact H] | auto].
Qed.

Lemma lookup_None d k : ~ In k (keys d) <-> lookup d k = None.
Proof.
  rewrite lookup_In. destruct (lookup d k) as [v|].
  - split; [intros H; exfalso; apply H; eauto | discriminate].
  - split; [reflexivity | intros _ [v H]; discriminate].
Qed.

Lemma getitem_Some d k v : lookup d k = Some v -> getitem d k = inr v.
Proof. unfold getitem. intros ->. reflexivity. Qed.

Lemma getitem_inr d k v : getitem d k = inr v <-> lookup d k = Some v.
Proof.
  unfold getitem. destruct (lookup d k); split; congruence.
Qed.

Lemma getitem_inl d k e :
  getitem d k = inl e <-> e = KeyError k /\ ~ In k (keys d).
Proof.
  unfold getitem. rewrite lookup_None. destruct (lookup d k).
  - split; [discriminate | intros [_ H]; discriminate].
  - split; [intros [= <-]; auto | intros [-> _]; reflexivity].
Qed.

Lemma lookup_setitem d k v k' :
  lookup (setitem d k v) k' = if String.eqb k k' then Some v else lookup d k'.
Proof.
  induction d as [|[k0 v0] d IH]; simpl.
  - reflexivity.
  - destruct (String.eqb_spec k0 k) as [->|Hne]; simpl.
    + destruct (String.eqb k k'); reflexivity.
    + rewrite IH. destruct (String.eqb_spec k0 k') as [->|Hne'].
      * destruct (String.eqb_spec k k'); [congruence | reflexivity].
      * reflexivity.
Qed.

Lemma lookup_pop d k k' :
  lookup (pop d k) k' = if String.eqb k k' then None else lookup d k'.
Proof.
  unfold pop. induction d as [|[k0 v0] d IH]; simpl.
  - destruct (String.eqb k k'); reflexivity.
  - destruct (String.eqb_spec k0 k) as [->|Hne]; simpl.
    + rewrite IH. destruct (String.eqb k k'); reflexivity.
    + rewrite IH. destruct (String.eqb_spec k0 k') as [->|Hne'].
      * destruct (String.eqb_spec k k'); [congruence | reflexivity].
      * reflexivity.
Qed.

Lemma keys_setitem d k v x :
  In x (keys (setitem d k v)) <-> x = k \/ In x (keys d).
Proof.
  rewrite !lookup_In. setoid_rewrite lookup_setitem.
  destruct (String.eqb_spec k x) as [->|Hne].
  - split; eauto.
  - split; [auto | intros [->|H]; [congruence | exact H]].
Qed.

(** Renaming a channel to its own name changes no value. *)
Lemma rename_same d k :
  In k (keys d) ->
  exists d', rename_data d k k = inr d' /\
             (forall k', lookup d' k' = lookup d k').
Proof.
  intros Hin. apply lookup_In in Hin as [v Hv].
  unfold rename_data. rewrite (getitem_Some _ _ Hv). simpl.
  eexists. split; [reflexivity|].
  intros k'. rewrite lookup_setitem, lookup_pop.
  destruct (String.eqb_spec k k') as [->|Hne]; [symmetry; exact Hv | reflexivity].
Qed.

Lemma filter_eqb_hd (l : list string) k :
  In k l -> exists rest, filter (fun n => String.eqb n k) l = k :: rest.
Proof.
  induction l as [|x l IH]; simpl; [tauto|].
  intros [->|Hin].
  - rewrite String.eqb_refl. eauto.
  - destruct (String.eqb_spec x k) as [->|Hne]; [eauto | auto].
Qed.

Lemma keys_same d d' :
  (forall k, lookup d' k = lookup d k) ->
  forall k, In k (keys d') <-> In k (keys d).
Proof. intros H k. rewrite !lookup_In, H. reflexivity. Qed.
End DictFacts.

Lemma mapM_getitem_inr (V : Type) (d : dict V) ks vs :
  mapM (getitem d) ks = inr vs <-> Forall2 (fun k v => lookup d k = Some v) ks vs.
Proof.
  revert vs. induction ks as [|k ks IH]; intros vs; simpl.
  - split; [intros [= <-]; constructor | intros H; inversion H; reflexivity].
  - unfold getitem at 1. destruct (lookup d k) as [v|] eqn:Hk; simpl.
    + destruct (mapM (getitem d) ks) as [e|vs'] eqn:Hm; simpl.
      * split; [discriminate|]. intros H; inversion H; subst.
        apply IH in H4. discriminate.
      * split.
        -- intros [= <-]. constructor; [exact Hk | apply IH; reflexivity].
        -- intros H; inversion H; subst. apply IH in H4. congruence.
    + split; [discriminate | intros H; inversion H; congruence].
Qed.

Lemma mapM_getitem_inl (V : Type) (d : dict V) ks e :
  mapM (getitem d) ks = inl e ->
  exists q, e = KeyError q /\ In q ks /\ ~ In q (keys d).
Proof.
  induction ks as [|k ks IH]; simpl; [discriminate|].
  destruct (getitem d k) as [e'|v] eqn:Hk; simpl.
  - intros [= <-]. apply getitem_inl in Hk as [-> Hn]. eauto.
  - destruct (mapM (getitem d) ks) as [e'|vs]; simpl; [|discriminate].
    intros [= <-]. destruct (IH eq_refl) as [q [-> [Hin Hn]]]. eauto.
Qed.

Lemma mapM_getitem_total (V : Type) (d : dict V) ks :
  (forall k, In k ks -> In k (keys d)) -> exists vs, mapM (getitem d) ks = inr vs.
Proof.
  intros H. destruct (mapM (getitem d) ks) as [e|vs] eqn:Hm; [|eauto].
  apply mapM_getitem_inl in Hm as [q [_ [Hin Hn]]]. exfalso. auto.
Qed.

Lemma mapM_length (A B : Type) (f : A -> result B) l r :
  mapM f l = inr r -> List.length r = List.length l.
Proof.
  revert r. induction l as [|a l IH]; intros r; simpl.
  - intros [= <-]. reflexivity.
  - destruct (f a); simpl; [discriminate|].
    destruct (mapM f l); simpl; [discriminate|].
    intros [= <-]. simpl. f_equal. apply IH. reflexivity.
Qed.

(** ** The order of a list *)
Lemma before_head_absurd p v l : NoDup (v :: l) -> ~ before p v (v :: l).
Proof.
  intros Hnd [l1 [l2 [Heq Hin]]]. destruct l1 as [|x l1]; [exact Hin|].
  simpl in Heq. injection Heq as <- ->. inversion Hnd; subst.
  apply H1. apply in_or_app. right. left. reflexivity.
Qed.

Lemma before_tail p w v l :
  before p w (v :: l) -> p = v \/ before p w l.
Proof.
  intros [l1 [l2 [Heq Hin]]]. destruct l1 as [|x l1]; [contradiction|].
  simpl in Heq. injection Heq as <- ->. destruct Hin as [->|Hin]; [auto|].
  right. exists l1, l2. auto.
Qed.

Lemma before_app_l u v (a b : list string) :
  In u a -> In v b -> before u v (a ++ b).
Proof.
  intros Hu Hv. apply in_split in Hv as [b1 [b2 ->]].
  exists (a ++ b1)%list, b2. split.
  - rewrite app_assoc. reflexivity.
  - apply in_or_app. auto.
Qed.

Lemma before_app_r u v (a b : list string) :
  before u v b -> before u v (a ++ b).
Proof.
  intros [l1 [l2 [-> Hin]]]. exists (a ++ l1)%list, l2. split.
  - rewrite app_assoc. reflexivity.
  - apply in_or_app. auto.
Qed.

Lemma before_filter (f : string -> bool) u v l :
  before u v l -> f u = true -> f v = true -> before u v (filter f l).
Proof.
  intros [l1 [l2 [-> Hin]]] Hu Hv.
  exists (filter f l1), (filter f l2). split.
  - rewrite filter_app. simpl. rewrite Hv. reflexivity.
  - apply filter_In. auto.
Qed.

(** ** Channels of one length and their mean *)
Lemma uniform_lookup n (m : TimeSeries) k x :
  uniform n m -> lookup m k = Some x -> List.length x = n.
Proof.
  intros Hu. induction Hu as [|[k' v'] m Hh Ht IH]; simpl; [discriminate|].
  destruct (String.eqb k' k); [intros [= <-]; exact Hh | exact IH].
Qed.

Lemma uniform_setitem n (m : TimeSeries) k x :
  uniform n m -> List.length x = n -> uniform n (setitem m k x).
Proof.
  intros Hu Hx. induction Hu as [|[k' v'] m Hh Ht IH]; simpl.
  - constructor; [exact Hx | constructor].
  - destruct (String.eqb k' k); constructor; auto.
Qed.

Lemma uniform_pop n (m : TimeSeries) k : uniform n m -> uniform n (pop m k).
Proof.
  unfold uniform, pop. rewrite !Forall_forall. intros H x Hx.
  apply filter_In in Hx as [Hx _]. auto.
Qed.

Lemma uniform_rename n (m m1 : TimeSeries) a b :
  uniform n m -> rename_data m a b = inr m1 -> uniform n m1.
Proof.
  intros Hu. unfold rename_data, getitem.
  destruct (lookup m a) as [x|] eqn:Hx; simpl; [|discriminate].
  intros [= <-]. apply uniform_setitem; [apply uniform_pop, Hu|].
  eapply uniform_lookup; eassumption.
Qed.

Lemma length_zip_with (A B C : Type) (f : A -> B -> C) l m :
  List.length m = List.length l -> List.length (zip_with f l m) = List.length l.
Proof.
  revert m. induction l as [|a l IH]; intros [|b m]; simpl; try discriminate; auto.
Qed.

Lemma length_fold_zip rest : forall a,
  Forall (fun b : list vec3 => List.length b = List.length a) rest ->
  List.length (fold_left (zip_with vadd) rest a) = List.length a.
Proof.
  induction rest as [|b rest IH]; intros a H; simpl; [reflexivity|].
  inversion H as [|? ? Hb Hrest]; subst.
  assert (Hz : List.length (zip_with vadd a b) = List.length a)
    by (apply length_zip_with; exact Hb).
  rewrite IH; [exact Hz|].
  rewrite Hz. exact Hrest.
Qed.

Lemma np_mean_inl arrs e : np_mean arrs = inl e -> e = ValueError.
Proof.
  destruct arrs as [|a rest]; simpl; [congruence|].
  destruct (forallb _ rest); congruence.
Qed.

Lemma np_mean_inr n arrs :
  arrs <> [] -> Forall (fun a => List.length a = n) arrs ->
  exists avg, np_mean arrs = inr avg /\ List.length avg = n.
Proof.
  destruct arrs as [|a rest]; [congruence|]. intros _ H.
  inversion H as [|? ? Ha Hrest]; subst. simpl.
  assert (Hf : Forall (fun b : list vec3 => List.length b = List.length a) rest).
  { eapply Forall_impl; [|exact Hrest]. simpl. intros b Hb. congruence. }
  assert (Hb : forallb (fun b : list vec3 => Nat.eqb (List.length b) (List.length a)) rest = true).
  { apply forallb_forall. intros b Hin. apply Nat.eqb_eq.
    rewrite Forall_forall in Hf. auto. }
  rewrite Hb. eexists. split; [reflexivity|].
  rewrite length_map. apply length_fold_zip, Hf.
Qed.

Lemma np_mean_lengths arrs avg :
  np_mean arrs = inr avg -> forall a, In a arrs -> List.length avg = List.length a.
Proof.
  destruct arrs as [|a0 rest]; simpl; [discriminate|].
  destruct (forallb _ rest) eqn:Hb; [|discriminate].
  intros [= <-] a Hin. rewrite length_map.
  assert (Hf : Forall (fun b : list vec3 => List.length b = List.length a0) rest).
  { apply Forall_forall. intros b Hbin. apply Nat.eqb_eq.
    rewrite forallb_forall in Hb. auto. }
  rewrite (@length_fold_zip rest a0 Hf).
  destruct Hin as [<-|Hin]; [reflexivity|].
  rewrite Forall_forall in Hf. symmetry. auto.
Qed.

Lemma nth_error_fold_zip i rest : forall a r rows,
  nth_error a i = Some r -> rows_at i rest rows ->
  nth_error (fold_left (zip_with vadd) rest a) i = Some (fold_left vadd rows r).
Proof.
  unfold rows_at.
  induction rest as [|b rest IH]; intros a r rows Ha H; inversion H; subst; simpl.
  - exact Ha.
  - apply IH; [|assumption]. apply nth_error_zip_with; assumption.
Qed.

Lemma np_mean_row arrs avg i rows :
  np_mean arrs = inr avg -> rows_at i arrs rows ->
  nth_error avg i = Some (row_mean rows).
Proof.
  destruct arrs as [|a rest]; simpl; [discriminate|].
  destruct (forallb _ rest); [|discriminate].
  intros [= <-] H. inversion H as [|? r ? rows' Hr Hrest]; subst.
  rewrite nth_error_map, (@nth_error_fold_zip i rest a r rows' Hr Hrest). simpl.
  assert (Hl : List.length rows' = List.length rest).
  { symmetry. eapply Forall2_length. exact Hrest. }
  rewrite Hl. reflexivity.
Qed.

(** ** The loop of [add_custom_markers] *)
Section Loop.
Variable g : DiGraph.

Lemma ordered_tail m m1 v ps :
  ordered g m (v :: ps) ->
  (forall k, In k (keys m1) <-> k = v \/ In k (keys m)) ->
  ordered g m1 ps.
Proof.
  intros Ho Hk w Hw Hn.
  destruct (Ho w (or_intror Hw)) as [par [Hp [Hne Hpar]]].
  { intros Hin. apply Hn. apply Hk. auto. }
  exists par. split; [exact Hp|]. split; [exact Hne|].
  intros p Hin Hps. destruct (Hpar p Hin (or_intror Hps)) as [H|H].
  - left. apply Hk. auto.
  - apply before_tail in H as [->|H]; [left; apply Hk; auto | right; exact H].
Qed.

Lemma add_custom_markers_spec ps :
  forall m, NoDup ps -> ordered g m ps ->
  match add_custom_markers g m ps with
  | inr m' =>
      extends m m' /\
      (forall k, In k (keys m') <-> In k (keys m) \/ In k ps) /\
      (forall v, In v ps -> ~ In v (keys m) ->
         exists par arrs avg,
           predecessors g v = inr par /\
           mapM (getitem m') par = inr arrs /\
           np_mean arrs = inr avg /\
           lookup m' v = Some avg)
  | inl e =>
      (e = ValueError /\ forall n, ~ uniform n m) \/
      exists v par q,
        e = KeyError q /\ In v ps /\ ~ In v (keys m) /\
        predecessors g v = inr par /\ In q par /\
        ~ In q (keys m) /\ ~ In q ps
  end.
Proof.
  induction ps as [|v ps IH]; intros m Hnd Ho; simpl.
  - split; [intros k x H; exact H|]. split; [intros k; tauto|].
    intros v [].
  - inversion Hnd as [|? ? Hv Hnd']; subst.
    destruct (contains m v) eqn:Hc.
    + (* the channel exists: renamed to itself *)
      apply contains_In in Hc.
      destruct (@filter_eqb_hd (keys m) v Hc) as [rest ->].
      destruct (@rename_same _ m v Hc) as [m1 [Hren Hm1]]. rewrite Hren. simpl.
      assert (Hk1 : forall k, In k (keys m1) <-> k = v \/ In k (keys m)).
      { intros k. rewrite (@keys_same _ m m1 Hm1 k). split; [auto|].
        intros [->|H]; assumption. }
      specialize (IH m1 Hnd' (@ordered_tail m m1 v ps Ho Hk1)).
      destruct (add_custom_markers g m1 ps) as [e|m'].
      * destruct IH as [[-> Hu]|[w [par [q [-> [Hw [Hn [Hp [Hq [Hqk Hqp]]]]]]]]]].
        { left. split; [reflexivity|]. intros n Hn. apply (Hu n).
          eapply uniform_rename; eassumption. }
        right. exists w, par, q. repeat split; auto.
        -- intros H. apply Hn, Hk1. auto.
        -- intros H. apply Hqk, Hk1. auto.
        -- intros [<-|H]; [apply Hqk, Hk1; auto | auto].
      * destruct IH as [Hext [Hkeys Hmean]]. split; [|split].
        -- intros k x Hx. apply Hext. rewrite Hm1. exact Hx.
        -- intros k. rewrite Hkeys, Hk1. simpl. split.
           ++ intros [[->|H]|H]; auto.
           ++ intros [H|[<-|H]]; auto.
        -- intros w [<-|Hw] Hn; [contradiction|].
           apply Hmean; [exact Hw|]. intros H. apply Hk1 in H as [->|H]; auto.
    + (* the channel is derived from its parents *)
      apply contains_false in Hc.
      destruct (Ho v (or_introl eq_refl) Hc) as [par [Hp [Hne Hpar]]].
      rewrite Hp. simpl.
      destruct (mapM (getitem m) par) as [e|arrs] eqn:Hm; simpl.
      * apply mapM_getitem_inl in Hm as [q [-> [Hq Hqk]]].
        right. exists v, par, q. repeat split; auto.
        intros Hin. destruct (Hpar q Hq Hin) as [H|H]; [auto|].
        exact (@before_head_absurd q v ps Hnd H).
      * assert (Harrs : arrs <> []).
        { apply mapM_length in Hm. destruct arrs, par; simpl in *; congruence. }
        assert (Hlen : forall n, uniform n m ->
                  Forall (fun a => List.length a = n) arrs).
        { intros n Hn. apply mapM_getitem_inr in Hm.
          clear - Hm Hn. induction Hm; constructor; auto.
          eapply uniform_lookup; eassumption. }
        destruct (np_mean arrs) as [e|avg] eqn:Havg; simpl.
        { left. split; [eapply np_mean_inl; eassumption|].
          intros n Hn. destruct (@np_mean_inr n arrs Harrs (Hlen n Hn)) as [a [Ha _]].
          congruence. }
        set (m1 := add_data m v avg).
        assert (Hk1 : forall k, In k (keys m1) <-> k = v \/ In k (keys m)).
        { intros k. unfold m1, add_data. apply keys_setitem. }
        assert (Hl1 : forall k, k <> v -> lookup m1 k = lookup m k).
        { intros k Hk. unfold m1, add_data. rewrite lookup_setitem.
          destruct (String.eqb_spec v k); [congruence | reflexivity]. }
        assert (Hlv : lookup m1 v = Some avg).
        { unfold m1, add_data. rewrite lookup_setitem, String.eqb_refl. reflexivity. }
        specialize (IH m1 Hnd' (@ordered_tail m m1 v ps Ho Hk1)).
        destruct (add_custom_markers g m1 ps) as [e|m'].
        -- destruct IH as [[-> Hu]|[w [parw [q [-> [Hw [Hn [Hpw [Hq [Hqk Hqp]]]]]]]]]].
           { left. split; [reflexivity|]. intros n Hn. apply (Hu n).
             unfold m1, add_data. apply uniform_setitem; [exact Hn|].
             destruct (@np_mean_inr n arrs Harrs (Hlen n Hn)) as [a [Ha Hla]].
             congruence. }
           right. exists w, parw, q. repeat split; auto.
           ++ intros H. apply Hn, Hk1. auto.
           ++ intros H. apply Hqk, Hk1. auto.
           ++ intros [<-|H]; [apply Hqk, Hk1; auto | auto].
        -- destruct IH as [Hext [Hkeys Hmean]].
           assert (Hext0 : extends m m').
           { intros k x Hx. apply Hext. rewrite Hl1; [exact Hx|].
             intros ->. apply Hc. apply lookup_In. eauto. }
           split; [exact Hext0|]. split.
           ++ intros k. rewrite Hkeys, Hk1. simpl. split.
              ** intros [[->|H]|H]; auto.
              ** intros [H|[<-|H]]; auto.
           ++ intros w [<-|Hw] Hn.
              ** exists par, arrs, avg. repeat split; auto.
                 apply mapM_getitem_inr. apply mapM_getitem_inr in Hm.
                 eapply Forall2_impl; [|exact Hm]. intros a b H. apply Hext0, H.
              ** apply Hmean; [exact Hw|].
                 intros H. apply Hk1 in H as [->|H]; auto.
Qed.

(** When every name is a channel already, nothing is derived. *)
Lemma add_custom_markers_present ps :
  forall m, (forall v, In v ps -> In v (keys m)) ->
  exists m', add_custom_markers g m ps = inr m' /\
             forall k, lookup m' k = lookup m k.
Proof.
  induction ps as [|v ps IH]; intros m H; simpl.
  - exists m. split; reflexivity.
  - assert (Hv : In v (keys m)) by (apply H; left; reflexivity).
    rewrite (proj2 (contains_In m v) Hv).
    destruct (@filter_eqb_hd (keys m) v Hv) as [rest ->].
    destruct (@rename_same _ m v Hv) as [m1 [Hren Hm1]]. rewrite Hren. simpl.
    destruct (IH m1) as [m' [Hm' Hl]].
    { intros w Hw. apply (@keys_same _ m m1 Hm1 w). apply H. right. exact Hw. }
    exists m'. split; [exact Hm'|]. intros k. rewrite Hl. apply Hm1.
Qed.
End Loop.

(** ** The marker graph *)
Lemma mem_In x l : mem x l = true <-> In x l.
Proof.
  unfold mem. rewrite existsb_exists. split.
  - intros [y [Hin Heq]]. apply String.eqb_eq in Heq. subst. exact Hin.
  - intros Hin. exists x. split; [exact Hin | apply String.eqb_refl].
Qed.

Lemma mem_false x l : mem x l = false <-> ~ In x l.
Proof. rewrite <- mem_In. destruct (mem x l); split; congruence. Qed.

Lemma has_node_In g n : has_node g n = true <-> In n (node_names g).
Proof.
  unfold has_node, node_names. rewrite existsb_exists, in_map_iff. split.
  - intros [p [Hin Heq]]. apply String.eqb_eq in Heq. exists p. auto.
  - intros [p [Heq Hin]]. exists p. split; [exact Hin | apply String.eqb_eq, Heq].
Qed.

Lemma has_node_false g n : has_node g n = false <-> ~ In n (node_names g).
Proof. rewrite <- has_node_In. destruct (has_node g n); split; congruence. Qed.

Lemma custom_In_names g v : In v (custom_part_names g) -> In v (node_names g).
Proof.
  unfold custom_part_names, node_names. rewrite !in_map_iff.
  intros [p [Heq Hin]]. apply filter_In in Hin as [Hin _]. eauto.
Qed.

Lemma edges_add_node c g n : edges (add_node c g n) = edges g.
Proof. unfold add_node. destruct (has_node g n), c; reflexivity. Qed.

Lemma custom_add_node_false g n :
  custom_part_names (add_node false g n) = custom_part_names g.
Proof.
  unfold custom_part_names, add_node. destruct (has_node g n); simpl; [reflexivity|].
  rewrite filter_app. simpl. rewrite app_nil_r. reflexivity.
Qed.

Lemma names_add_node_false g n x :
  In x (node_names (add_node false g n)) <-> x = n \/ In x (node_names g).
Proof.
  unfold add_node. destruct (has_node g n) eqn:H.
  - apply has_node_In in H. split; [auto | intros [->|H']; assumption].
  - unfold node_names; simpl. rewrite map_app, in_app_iff. simpl.
    split; [intros [H'|[H'|[]]]; auto | intros [H'|H']; auto].
Qed.

Lemma NoDup_snoc (A : Type) (l : list A) a : NoDup l -> ~ In a l -> NoDup (l ++ [a]).
Proof.
  intros Hl Ha. induction Hl as [|x l Hx Hl IH]; simpl.
  - constructor; [intros [] | constructor].
  - constructor.
    + rewrite in_app_iff. simpl. intros [H|[H|[]]]; [auto|].
      apply Ha. left. symmetry. exact H.
    + apply IH. intros H. apply Ha. right. exact H.
Qed.

Lemma NoDup_add_node_false g n :
  NoDup (node_names g) -> NoDup (node_names (add_node false g n)).
Proof.
  unfold add_node. destruct (has_node g n) eqn:H; [auto|].
  apply has_node_false in H. intros Hnd. unfold node_names in *. simpl.
  rewrite map_app. simpl. apply NoDup_snoc; assumption.
Qed.

(** [add_nodes_from names] without attribute *)
Lemma add_nodes_false names : forall g,
  let g' := add_nodes_from names false g in
  custom_part_names g' = custom_part_names g /\
  edges g' = edges g /\
  (forall x, In x (node_names g') <-> In x names \/ In x (node_names g)) /\
  (NoDup (node_names g) -> NoDup (node_names g')).
Proof.
  unfold add_nodes_from.
  induction names as [|n names IH]; intros g; simpl.
  - repeat split; auto. intros [[]|H]; exact H.
  - destruct (IH (add_node false g n)) as [Hc [He [Hn Hd]]].
    split; [rewrite Hc; apply custom_add_node_false|].
    split; [rewrite He; apply edges_add_node|].
    split.
    + intros x. rewrite Hn, names_add_node_false.
      split; [intros [H|[H|H]]; auto | intros [[H|H]|H]; auto].
    + intros H. apply Hd, NoDup_add_node_false, H.
Qed.

Lemma map_fst_mark c (N : list (string * bool)) :
  map fst (map (fun p => if String.eqb (fst p) c then (fst p, true) else p) N) =
  map fst N.
Proof.
  rewrite map_map. apply map_ext. intros p.
  destruct (String.eqb (fst p) c); reflexivity.
Qed.

Lemma filter_mark c cs (N : list (string * bool)) :
  map fst (filter (fun p => snd p || mem (fst p) cs)
             (map (fun p => if String.eqb (fst p) c then (fst p, true) else p) N)) =
  map fst (filter (fun p => snd p || mem (fst p) (c :: cs)) N).
Proof.
  induction N as [|p N IH]; simpl; [reflexivity|].
  unfold mem at 2. simpl. fold (mem (fst p) cs).
  destruct (String.eqb_spec (fst p) c) as [Heq|Hne]; simpl.
  - rewrite orb_true_r. simpl. f_equal. exact IH.
  - destruct (snd p || mem (fst p) cs); simpl; [f_equal|]; exact IH.
Qed.

(** [add_nodes_from cs, is_custom=True]: the nodes of [g] named in [cs]
    get the attribute where they stand, the other names of [cs] follow
    in their order. *)
Lemma add_nodes_true cs : forall g, NoDup cs ->
  custom_part_names (add_nodes_from cs true g) =
  (map fst (filter (fun p => snd p || mem (fst p) cs) (nodes g)) ++
   filter (fun c => negb (mem c (node_names g))) cs)%list.
Proof.
  unfold add_nodes_from.
  induction cs as [|c cs IH]; intros g Hnd.
  - simpl. rewrite app_nil_r. unfold custom_part_names. f_equal.
    apply filter_ext. intros p. rewrite orb_false_r. reflexivity.
  - inversion Hnd as [|? ? Hc Hnd']; subst.
    change (fold_left (add_node true) (c :: cs) g)
      with (fold_left (add_node true) cs (add_node true g c)).
    rewrite (IH _ Hnd').
    change (filter (fun c0 => negb (mem c0 (node_names g))) (c :: cs))
      with (if negb (mem c (node_names g))
            then c :: filter (fun c0 => negb (mem c0 (node_names g))) cs
            else filter (fun c0 => negb (mem c0 (node_names g))) cs).
    unfold add_node. destruct (has_node g c) eqn:Hn.
    + (* the node is there: marked in place *)
      apply has_node_In in Hn. rewrite (proj2 (mem_In c (node_names g)) Hn).
      unfold node_names. simpl. rewrite map_fst_mark, filter_mark. reflexivity.
    + (* a new node, last *)
      apply has_node_false in Hn. rewrite (proj2 (mem_false c (node_names g)) Hn).
      unfold node_names in *. simpl. rewrite filter_app, !map_app. simpl.
      rewrite <- app_assoc. simpl.
      f_equal.
      * f_equal. apply filter_ext_in. intros p Hp. f_equal.
        unfold mem. simpl. fold (mem (fst p) cs).
        destruct (String.eqb_spec (fst p) c) as [Heq|Hne]; [|reflexivity].
        exfalso. apply Hn. rewrite <- Heq. apply in_map, Hp.
      * f_equal. apply filter_ext_in. intros x Hx. f_equal.
        unfold mem. rewrite existsb_app. simpl. rewrite orb_false_r.
        destruct (String.eqb_spec x c) as [->|Hne]; [contradiction|].
        rewrite orb_false_r. reflexivity.
Qed.

Lemma add_edge_facts g e :
  custom_part_names (add_edge g e) = custom_part_names g /\
  edges (add_edge g e) = add_edge_list (edges g) e /\
  (forall x, In x (node_names g) -> In x (node_names (add_edge g e))).
Proof.
  assert (Hn : forall x, In x (node_names g) ->
            In x (node_names (add_node false (add_node false g (fst e)) (snd e)))).
  { intros x H. apply names_add_node_false. right.
    apply names_add_node_false. right. exact H. }
  unfold add_edge, add_edge_list, has_edge. cbv zeta. rewrite !edges_add_node.
  destruct (existsb _ (edges g)).
  - rewrite !custom_add_node_false, !edges_add_node.
    split; [reflexivity|]. split; [reflexivity|exact Hn].
  - split; [|split; [reflexivity|exact Hn]].
    unfold custom_part_names at 1. simpl.
    fold (custom_part_names (add_node false (add_node false g (fst e)) (snd e))).
    rewrite !custom_add_node_false. reflexivity.
Qed.

Lemma add_edges_facts es : forall g,
  custom_part_names (add_edges_from es g) = custom_part_names g /\
  edges (add_edges_from es g) = fold_left add_edge_list es (edges g).
Proof.
  unfold add_edges_from. induction es as [|e es IH]; intros g; simpl; [auto|].
  destruct (IH (add_edge g e)) as [Hc He].
  destruct (add_edge_facts g e) as [Hc' [He' _]].
  rewrite Hc, He, Hc', He'. auto.
Qed.

Lemma marker_edges_fold : fold_left add_edge_list marker_edges [] = marker_edges.
Proof. reflexivity. Qed.

Lemma NoDup_custom_nodes : NoDup custom_nodes.
Proof.
  apply (NoDup_count_occ' string_dec). intros x Hx.
  simpl in Hx.
  repeat (destruct Hx as [<-|Hx]; [reflexivity|]). contradiction.
Qed.

Lemma edges_add_nodes_from c names : forall g,
  edges (add_nodes_from names c g) = edges g.
Proof.
  unfold add_nodes_from. induction names as [|n names IH]; intros g; simpl.
  - reflexivity.
  - rewrite IH. apply edges_add_node.
Qed.

Lemma generate_marker_graph_edges names :
  edges (generate_marker_graph names) = marker_edges.
Proof.
  unfold generate_marker_graph. cbv zeta.
  rewrite (proj2 (add_edges_facts marker_edges _)), !edges_add_nodes_from.
  exact marker_edges_fold.
Qed.

Lemma NoDup_map_fst_filter (f : string * bool -> bool) N :
  NoDup (map fst N) -> NoDup (map fst (filter f N)).
Proof.
  induction N as [|p N IH]; simpl; [auto|].
  intros H. inversion H as [|? ? Hp HN]; subst.
  destruct (f p); simpl; [constructor|]; auto.
  intros Hin. apply Hp. apply in_map_iff in Hin as [q [Hq Hin]].
  apply filter_In in Hin as [Hin _]. apply in_map_iff. eauto.
Qed.

Lemma mem_ext c l l' : (forall x, In x l <-> In x l') -> mem c l = mem c l'.
Proof.
  intros H. destruct (mem c l') eqn:E.
  - apply mem_In, H, mem_In, E.
  - apply mem_false. intros Hin. apply mem_false in E. apply E, H, Hin.
Qed.

(** The names handed to [add_custom_markers]: the derived names that are
    channels of the trial, then the others in the order of the code. *)
Lemma part_names_split names :
  exists A,
    custom_part_names (generate_marker_graph names) =
      (A ++ filter (fun c => negb (mem c names)) custom_nodes)%list /\
    NoDup A /\
    forall a, In a A <-> In a names /\ In a custom_nodes.
Proof.
  unfold generate_marker_graph. cbv zeta.
  rewrite (proj1 (add_edges_facts marker_edges _)).
  rewrite (@add_nodes_true custom_nodes _ NoDup_custom_nodes).
  destruct (add_nodes_false names empty_graph) as [Hc [_ [Hn Hd]]].
  set (g0 := add_nodes_from names false empty_graph) in *.
  assert (Hflag : forall p, In p (nodes g0) -> snd p = false).
  { intros p Hp. destruct (snd p) eqn:E; [|reflexivity]. exfalso.
    assert (Hin : In (fst p) (custom_part_names g0)).
    { unfold custom_part_names. apply in_map, filter_In. auto. }
    rewrite Hc in Hin. exact Hin. }
  eexists. split; [|split].
  - f_equal. apply filter_ext. intros c. f_equal. apply mem_ext.
    intros x. rewrite Hn. simpl. tauto.
  - apply NoDup_map_fst_filter, Hd. constructor.
  - intros a. rewrite in_map_iff. split.
    + intros [p [<- Hp]]. apply filter_In in Hp as [Hp Hf].
      rewrite (Hflag p Hp), orb_false_l in Hf. apply mem_In in Hf. split; [|exact Hf].
      assert (H : In (fst p) (node_names g0)) by (apply in_map, Hp).
      apply Hn in H as [H|[]]. exact H.
    + intros [Ha Hcu].
      assert (H : In a (node_names g0)) by (apply Hn; auto).
      apply in_map_iff in H as [p [<- Hp]]. exists p. split; [reflexivity|].
      apply filter_In. split; [exact Hp|].
      rewrite (proj2 (mem_In _ _) Hcu). apply orb_true_r.
Qed.

Lemma part_names_In names v :
  In v (custom_part_names (generate_marker_graph names)) <-> In v custom_nodes.
Proof.
  destruct (part_names_split names) as [A [-> [_ HA]]].
  rewrite in_app_iff, HA, filter_In, negb_true_iff, mem_false.
  split; [tauto|]. intros H. destruct (in_dec string_dec v names); auto.
Qed.

Lemma NoDup_app2 (A : Type) (l l' : list A) :
  NoDup l -> NoDup l' -> (forall a, In a l -> ~ In a l') -> NoDup (l ++ l').
Proof.
  intros Hl Hl' Hd. induction Hl as [|x l Hx Hl IH]; simpl; [exact Hl'|].
  constructor.
  - rewrite in_app_iff. intros [H|H]; [auto|]. apply (Hd x); [left; reflexivity|exact H].
  - apply IH. intros a Ha. apply Hd. right. exact Ha.
Qed.

Lemma part_names_NoDup names :
  NoDup (custom_part_names (generate_marker_graph names)).
Proof.
  destruct (part_names_split names) as [A [-> [HA HinA]]].
  apply NoDup_app2; [exact HA | apply NoDup_filter, NoDup_custom_nodes|].
  intros a Ha Hf. apply HinA in Ha as [Ha _].
  apply filter_In in Hf as [_ Hf]. apply negb_true_iff, mem_false in Hf. auto.
Qed.

Lemma beforeb_sound u v l : beforeb u v l = true -> before u v l.
Proof.
  induction l as [|x l IH]; simpl; [discriminate|].
  destruct (String.eqb_spec x v) as [->|Hv]; [discriminate|].
  destruct (String.eqb_spec x u) as [->|Hu].
  - intros H. apply mem_In, in_split in H as [l1 [l2 ->]].
    exists (u :: l1), l2. split; [reflexivity | left; reflexivity].
  - intros H. destruct (IH H) as [l1 [l2 [-> Hin]]].
    exists (x :: l1), l2. split; [reflexivity | right; exact Hin].
Qed.

(** The code lists a derived parent before the nodes derived from it. *)
Lemma custom_edges_before u v :
  In (u, v) marker_edges -> In u custom_nodes -> before u v custom_nodes.
Proof.
  intros He Hu.
  assert (H : forallb (fun e => negb (mem (fst e) custom_nodes) ||
                               beforeb (fst e) (snd e) custom_nodes)
                marker_edges = true) by reflexivity.
  rewrite forallb_forall in H. specialize (H _ He).
  cbv beta iota delta [fst snd] in H.
  rewrite (proj2 (mem_In _ _) Hu) in H.
  apply beforeb_sound, H.
Qed.

(** The graph of a trial is a large term: from here on no argument is
    left implicit. *)
Unset Implicit Arguments.

Lemma t1 names v : In v custom_nodes -> ~ In v names ->
  In v (filter (fun c => negb (mem c names)) custom_nodes).
Proof.
  intros Hv Hn.
  apply filter_In. split; [exact Hv|]. apply negb_true_iff, mem_false, Hn.
Qed.

Lemma t2 names u v : In (u, v) marker_edges -> In u custom_nodes ->
  ~ In u names -> ~ In v names ->
  before u v (filter (fun c => negb (mem c names)) custom_nodes).
Proof.
  intros He Hu Hun Hn.
    apply (@before_filter (fun c => negb (mem c names)) u v custom_nodes).
    + exact (@custom_edges_before u v He Hu).
    + apply negb_true_iff, mem_false, Hun.
    + apply negb_true_iff, mem_false, Hn.
Qed.

Lemma bs1 names (A : list string) u v :
  In u A -> In v custom_nodes -> ~ In v names ->
  before u v (A ++ filter (fun c => negb (mem c names)) custom_nodes).
Proof.
  intros HA Hv Hn.
  apply before_app_l; [exact HA|].
  exact (@t1 names v Hv Hn).
Qed.

Lemma bs2 names (A : list string) u v :
  In (u, v) marker_edges -> In u custom_nodes -> ~ In u names ->
  ~ In v names ->
  before u v (A ++ filter (fun c => negb (mem c names)) custom_nodes).
Proof.
  intros He Hu Hun Hn.
  apply before_app_r. exact (@t2 names u v He Hu Hun Hn).
Qed.

Lemma mem_cases (u : string) (names : list string) : In u names \/ ~ In u names.
Proof.
  destruct (mem u names) eqn:E.
  - left. exact (proj1 (mem_In u names) E).
  - right. exact (proj1 (mem_false u names) E).
Qed.

Lemma before_split names A u v :
  (forall a, In a A <-> In a names /\ In a custom_nodes) ->
  In (u, v) marker_edges -> In u custom_nodes -> In v custom_nodes ->
  ~ In v names ->
  before u v (A ++ filter (fun c => negb (mem c names)) custom_nodes).
Proof.
  intros HA He Hu Hv Hn.
  destruct (mem_cases u names) as [E|E].
  - exact (@bs1 names A u v (proj2 (HA u) (conj E Hu)) Hv Hn).
  - exact (@bs2 names A u v He Hu E Hn).
Qed.

Lemma part_names_before names u v :
  In (u, v) marker_edges ->
  In u (custom_part_names (generate_marker_graph names)) ->
  In v (custom_part_names (generate_marker_graph names)) ->
  ~ In v names ->
  before u v (custom_part_names (generate_marker_graph names)).
Proof.
  intros He Hu Hv Hn.
  assert (Hu' := proj1 (part_names_In names u) Hu).
  assert (Hv' := proj1 (part_names_In names v) Hv).
  clear Hu Hv.
  destruct (part_names_split names) as [A [HeqA [_ HA]]].
  rewrite HeqA.
  exact (@before_split names A u v HA He Hu' Hv' Hn).
Qed.

Lemma parents_In p v : In p (parents v) <-> In (p, v) marker_edges.
Proof.
  unfold parents. rewrite in_map_iff. split.
  - intros [[a b] [<- H]]. apply filter_In in H as [H Hb]. simpl in *.
    apply String.eqb_eq in Hb. subst. exact H.
  - intros H. exists (p, v). split; [reflexivity|]. apply filter_In.
    split; [exact H | apply String.eqb_refl].
Qed.

Lemma parents_nonempty v : In v custom_nodes -> parents v <> [].
Proof.
  intros H. simpl in H.
  repeat (destruct H as [<-|H]; [discriminate|]). contradiction.
Qed.

Lemma predecessors_graph names v :
  In v custom_nodes -> predecessors (generate_marker_graph names) v = inr (parents v).
Proof.
  intros H. apply (proj2 (part_names_In names v)) in H.
  apply (custom_In_names (generate_marker_graph names) v) in H.
  apply (proj2 (has_node_In (generate_marker_graph names) v)) in H.
  unfold predecessors, parents. rewrite H, generate_marker_graph_edges.
  apply eq_refl.
Qed.

Lemma graph_ordered (m : TimeSeries) :
  ordered (generate_marker_graph (keys m)) m
          (custom_part_names (generate_marker_graph (keys m))).
Proof.
  intros v Hv Hn. exists (parents v).
  assert (Hc : In v custom_nodes) by (exact (proj1 (part_names_In (keys m) v) Hv)).
  split; [exact (@predecessors_graph (keys m) v Hc)|].
  split; [exact (@parents_nonempty v Hc)|].
  intros p Hp Hps. right.
  exact (@part_names_before (keys m) p v (proj1 (parents_In p v) Hp) Hps Hv Hn).
Qed.

(** What [synthesize] returns. *)
Lemma synthesize_spec (m : TimeSeries) :
  match synthesize m with
  | inr m' =>
      extends m m' /\
      (forall k, In k (keys m') <-> In k (keys m) \/ In k custom_nodes) /\
      (forall v, In v custom_nodes -> ~ In v (keys m) ->
         exists arrs avg,
           mapM (getitem m') (parents v) = inr arrs /\
           np_mean arrs = inr avg /\
           lookup m' v = Some avg)
  | inl e =>
      (e = ValueError /\ forall n, ~ uniform n m) \/
      exists v q, e = KeyError q /\ missing m v q
  end.
Proof.
  unfold synthesize. cbv zeta.
  assert (H := @add_custom_markers_spec (generate_marker_graph (keys m))
                 (custom_part_names (generate_marker_graph (keys m))) m
                 (part_names_NoDup (keys m)) (graph_ordered m)).
  destruct (add_custom_markers _ m _) as [e|m'].
  - destruct H as [H|[v [par [q [-> [Hv [Hn [Hp [Hq [Hqk Hqp]]]]]]]]]]; [left; exact H|].
    right. exists v, q. split; [reflexivity|].
    apply (proj1 (part_names_In (keys m) v)) in Hv.
    rewrite (@predecessors_graph (keys m) v Hv) in Hp.
    injection Hp as <-. unfold missing.
    split; [exact Hv|]. split; [exact Hn|]. split; [exact Hq|].
    split; [exact Hqk|].
    intros Hc. apply Hqp. exact (proj2 (part_names_In (keys m) q) Hc).
  - destruct H as [Hext [Hk Hmean]]. split; [exact Hext|]. split.
    + intros k. rewrite Hk. rewrite (part_names_In (keys m) k). reflexivity.
    + intros v Hv Hn.
      destruct (Hmean v (proj2 (part_names_In (keys m) v) Hv) Hn)
        as [par [arrs [avg [Hp [Hm [Ha Hl]]]]]].
      rewrite (@predecessors_graph (keys m) v Hv) in Hp. injection Hp as <-.
      exists arrs, avg. split; [exact Hm|]. split; [exact Ha | exact Hl].
Qed.

Lemma rows_exist i (arrs : list (list vec3)) :
  (forall a, In a arrs -> (i < List.length a)%nat) ->
  exists rows, rows_at i arrs rows.
Proof.
  unfold rows_at. induction arrs as [|a arrs IH]; intros H.
  - exists []. constructor.
  - destruct IH as [rows Hrows]; [intros b Hb; apply H; right; exact Hb|].
    destruct (nth_error a i) as [r|] eqn:Hr.
    + exists (r :: rows). constructor; assumption.
    + apply nth_error_None in Hr.
      assert (Hlt := H a (or_introl eq_refl)). lia.
Qed.


Lemma synthesize_inr (m m' : TimeSeries) :
  synthesize m = inr m' ->
  extends m m' /\
  (forall k, In k (keys m') <-> In k (keys m) \/ In k custom_nodes) /\
  (forall v, In v custom_nodes -> ~ In v (keys m) ->
     exists arrs avg,
       mapM (getitem m') (parents v) = inr arrs /\
       np_mean arrs = inr avg /\
       lookup m' v = Some avg).
Proof.
  intros H. assert (S := synthesize_spec m). rewrite H in S. exact S.
Qed.

Lemma synthesize_inl (m : TimeSeries) e :
  synthesize m = inl e ->
  (e = ValueError /\ forall n, ~ uniform n m) \/
  exists v q, e = KeyError q /\ missing m v q.
Proof.
  intros H. assert (S := synthesize_spec m). rewrite H in S. exact S.
Qed.

(** C5, amended: when the synthesizer succeeds, the names it works
    through are the derived nodes of the graph, each once; a node that
    is not a channel of the input comes after every parent it has among
    them (so the order is topological on the nodes that are derived,
    pelvis_m after hip_r and hip_l); every channel of the input, a
    derived name among them, keeps its values; and every derived node
    that is not a channel of the input gets as many samples as its
    parents have, each the arithmetic mean of the parents' positions at
    that sample. *)
Theorem C5_synthesis (m m' : TimeSeries) (H : synthesize m = inr m') :
  (NoDup (custom_part_names (generate_marker_graph (keys m))) /\
   forall v, In v (custom_part_names (generate_marker_graph (keys m))) <->
             In v custom_nodes) /\
  (forall u v,
     In (u, v) (edges (generate_marker_graph (keys m))) ->
     In u (custom_part_names (generate_marker_graph (keys m))) ->
     In v (custom_part_names (generate_marker_graph (keys m))) ->
     ~ In v (keys m) ->
     before u v (custom_part_names (generate_marker_graph (keys m)))) /\
  (forall k x, channel m k = Some x -> channel m' k = Some x) /\
  (forall v, In v custom_nodes -> ~ In v (keys m) ->
     exists arrs avg,
       mapM (getitem m') (parents v) = inr arrs /\
       channel m' v = Some avg /\
       (forall a, In a arrs -> List.length avg = List.length a) /\
       forall i, (i < List.length avg)%nat ->
         exists rows, rows_at i arrs rows /\
                      nth_error avg i = Some (row_mean rows)).
Proof.
  destruct (synthesize_inr m m' H) as [Hext [Hkeys Hmean]].
  split; [split; [apply part_names_NoDup | apply part_names_In]|].
  split.
  { intros u v He. rewrite generate_marker_graph_edges in He.
    apply part_names_before. exact He. }
  split; [exact Hext|].
  intros v Hv Hn. destruct (Hmean v Hv Hn) as [arrs [avg [Hm [Ha Hl]]]].
  exists arrs, avg. split; [exact Hm|]. split; [exact Hl|].
  assert (Hlen := @np_mean_lengths arrs avg Ha).
  split; [exact Hlen|].
  intros i Hi. destruct (rows_exist i arrs) as [rows Hrows].
  { intros a Hin. rewrite <- (Hlen a Hin). exact Hi. }
  exists rows. split; [exact Hrows|].
  exact (@np_mean_row arrs avg i rows Ha Hrows).
Qed.

(** C5, the stated order fails: on a trial that already has a pelvis_m
    channel the synthesizer succeeds and works through pelvis_m first,
    before its parent hip_r, so the order is not topological. *)
Lemma C5_counterexample :
  exists m',
    synthesize pelvis_trial = inr m' /\
    In ("hip_r", "pelvis_m") (edges (generate_marker_graph (keys pelvis_trial))) /\
    (exists rest,
       custom_part_names (generate_marker_graph (keys pelvis_trial)) =
         "pelvis_m" :: rest /\ In "hip_r" rest) /\
    ~ topological (generate_marker_graph (keys pelvis_trial))
        (custom_part_names (generate_marker_graph (keys pelvis_trial))).
Proof.
  exists (series_or_nil (synthesize pelvis_trial)).
  assert (He : In ("hip_r", "pelvis_m")
                 (edges (generate_marker_graph (keys pelvis_trial)))).
  { rewrite generate_marker_graph_edges. unfold marker_edges.
    do 22 right. left. reflexivity. }
  assert (Hps : custom_part_names (generate_marker_graph (keys pelvis_trial)) =
                "pelvis_m" :: ["torso_m"; "thorax_m"; "shoulder_r"; "shoulder_l";
                  "elbow_r"; "elbow_l"; "scapula_r"; "scapula_l"; "wrist_r";
                  "wrist_l"; "hip_r"; "hip_l"; "knee_r"; "knee_l"; "ankle_r";
                  "ankle_l"; "heel_r"; "heel_l"]) by reflexivity.
  split; [reflexivity|]. split; [exact He|]. split.
  - eexists. split; [exact Hps|]. do 10 right. left. reflexivity.
  - intros Htop.
    assert (Hnd := part_names_NoDup (keys pelvis_trial)).
    specialize (Htop "hip_r" "pelvis_m" He).
    rewrite Hps in Htop, Hnd.
    apply (@before_head_absurd "hip_r" "pelvis_m" _ Hnd). apply Htop.
    + do 11 right. left. reflexivity.
    + left. reflexivity.
Qed.

(** C5 on the trial with every real marker: pelvis_m is derived, after
    hip_r. *)
Lemma C5_synthesis_witness :
  exists avg,
    channel (series_or_nil (synthesize full_trial)) "pelvis_m" = Some avg /\
    before "hip_r" "pelvis_m"
      (custom_part_names (generate_marker_graph (keys full_trial))).
Proof.
  destruct (C5_synthesis full_trial (series_or_nil (synthesize full_trial)) eq_refl)
    as [_ [Hord [_ Hmean]]].
  destruct (Hmean "pelvis_m") as [arrs [avg [_ [Hl _]]]].
  - unfold custom_nodes. do 12 right. left. reflexivity.
  - apply (proj1 (contains_false full_trial "pelvis_m")). reflexivity.
  - exists avg. split; [exact Hl|]. apply Hord.
    + rewrite generate_marker_graph_edges. unfold marker_edges.
      do 22 right. left. reflexivity.
    + apply (proj2 (part_names_In (keys full_trial) "hip_r")).
      unfold custom_nodes. do 10 right. left. reflexivity.
    + apply (proj2 (part_names_In (keys full_trial) "pelvis_m")).
      unfold custom_nodes. do 12 right. left. reflexivity.
    + apply (proj1 (contains_false full_trial "pelvis_m")). reflexivity.
Defined.

Lemma mapM_getitem_In (d : TimeSeries) ks vs q :
  mapM (getitem d) ks = inr vs -> In q ks -> In q (keys d).
Proof.
  intros H Hq. apply mapM_getitem_inr in H.
  induction H as [|k x ks vs Hk _ IH]; [contradiction|].
  destruct Hq as [<-|Hq]; [|exact (IH Hq)].
  apply (proj2 (lookup_In d k)). exists x. exact Hk.
Qed.

Lemma parents_torso_m : parents "torso_m" = ["RSHO"; "LSHO"].
Proof. vm_compute. reflexivity. Qed.

Lemma parents_thorax_m : parents "thorax_m" = ["T10"; "STRN"].
Proof. vm_compute. reflexivity. Qed.



(** C6, amended: on a trial whose channels have one length, the
    synthesizer fails exactly when some derived node that is not a
    channel of the input has a parent, a real marker, that is not a
    channel either; the failure is a KeyError that names such a marker
    and no series is returned; a derived node that is a channel of the
    input is passed through with its values, whatever its parents. *)
Theorem C6_missing_parent (n : nat) (m : TimeSeries) (Hu : uniform n m) :
  ((exists v q, missing m v q) <-> (exists e, synthesize m = inl e)) /\
  (forall e, synthesize m = inl e ->
     exists v q, e = KeyError q /\ missing m v q) /\
  (forall v, In v custom_nodes -> In v (keys m) ->
     forall m', synthesize m = inr m' -> channel m' v = channel m v).
Proof.
  assert (Hinl : forall e, synthesize m = inl e ->
            exists v q, e = KeyError q /\ missing m v q).
  { intros e He. destruct (synthesize_inl m e He) as [[_ Hn]|Hk].
    - exfalso. exact (Hn n Hu).
    - exact Hk. }
  split; [|split; [exact Hinl|]].
  - split.
    + intros [v [q [Hv [Hnv [Hq [Hnq Hcq]]]]]].
      destruct (synthesize m) as [e|m'] eqn:Hs; [exists e; reflexivity|].
      exfalso. destruct (synthesize_inr m m' Hs) as [_ [Hkeys Hmean]].
      destruct (Hmean v Hv Hnv) as [arrs [avg [Hm _]]].
      assert (Hin := mapM_getitem_In m' (parents v) arrs q Hm Hq).
      apply Hkeys in Hin. destruct Hin as [Hin|Hin]; auto.
    + intros [e He]. destruct (Hinl e He) as [v [q [_ Hmiss]]].
      exists v, q. exact Hmiss.
  - intros v Hv Hin m' Hs. destruct (synthesize_inr m m' Hs) as [Hext _].
    apply (proj1 (lookup_In m v)) in Hin. destruct Hin as [x Hx].
    unfold channel. rewrite Hx. apply Hext. exact Hx.
Qed.

(** C6, the stated claim fails: a trial with a thorax_m channel and
    without the marker T10, a parent of thorax_m, is synthesized without
    error; and the failure on a trial without markers is the KeyError
    of the dictionary, not a ConfigurationError. *)
Lemma C6_counterexample :
  (exists m',
     synthesize thorax_trial = inr m' /\
     In "thorax_m" custom_nodes /\
     In "T10" (parents "thorax_m") /\
     ~ In "T10" (keys thorax_trial) /\
     channel m' "thorax_m" = channel thorax_trial "thorax_m") /\
  synthesize [] = inl (KeyError "RSHO") /\
  KeyError "RSHO" <> ConfigurationError.
Proof.
  split; [|split; [reflexivity | discriminate]].
  assert (Hs : synthesize thorax_trial =
               inr (series_or_nil (synthesize thorax_trial))) by reflexivity.
  exists (series_or_nil (synthesize thorax_trial)).
  split; [exact Hs|]. split; [do 1 right; left; reflexivity|].
  split; [rewrite parents_thorax_m; left; reflexivity|]. split.
  - apply (proj1 (contains_false thorax_trial "T10")). reflexivity.
  - destruct (synthesize_inr _ _ Hs) as [Hext _].
    assert (Hx : lookup thorax_trial "thorax_m" = Some (sample_channel 0))
      by reflexivity.
    unfold channel. rewrite Hx. apply Hext. exact Hx.
Qed.

(** C6 on the trial without channels. *)
Lemma C6_missing_parent_witness :
  exists v q, synthesize [] = inl (KeyError q) /\ missing [] v q.
Proof.
  destruct (C6_missing_parent 0 [] (Forall_nil _)) as [[Hex _] [Hinl _]].
  destruct Hex as [e He].
  - exists "torso_m", "RSHO". unfold missing.
    split; [left; reflexivity|]. split; [intros []|].
    split; [rewrite parents_torso_m; left; reflexivity|]. split; [intros []|].
    apply (proj1 (mem_false "RSHO" custom_nodes)). reflexivity.
  - destruct (Hinl e He) as [v [q [-> Hm]]]. exists v, q.
    split; [exact He | exact Hm].
Defined.

(** C9: the synthesizer run on its own output succeeds, and the series
    it returns has the same channels with the same values. *)
Theorem C9_idempotent (m m' : TimeSeries) (H : synthesize m = inr m') :
  exists m'',
    synthesize m' = inr m'' /\
    (forall k, channel m'' k = channel m' k) /\
    (forall k, In k (keys m'') <-> In k (keys m')).
Proof.
  destruct (synthesize_inr m m' H) as [_ [Hkeys _]].
  destruct (add_custom_markers_present (generate_marker_graph (keys m'))
              (custom_part_names (generate_marker_graph (keys m'))) m')
    as [m'' [Hs Hl]].
  { intros v Hv. apply Hkeys. right.
    exact (proj1 (part_names_In (keys m') v) Hv). }
  exists m''. split; [exact Hs|]. split; [exact Hl|].
  intros k. apply keys_same. exact Hl.
Qed.

(** C9 on the trial with every real marker. *)
Lemma C9_idempotent_witness :
  exists m'',
    synthesize (series_or_nil (synthesize full_trial)) = inr m'' /\
    channel m'' "pelvis_m" =
      channel (series_or_nil (synthesize full_trial)) "pelvis_m".
Proof.
  destruct (C9_idempotent full_trial (series_or_nil (synthesize full_trial))
              eq_refl) as [m'' [Hs [Hl _]]].
  exists m''. split; [exact Hs | apply Hl].
Defined.



(** * Geometry *)

(** ** The relative pose of two segments *)

Lemma dot_sub x d q : add (dot x d) (dot x (vneg q)) = dot x (vsub d q).
Proof.
  destruct x as [[x1 x2] x3], d as [[d1 d2] d3], q as [[q1 q2] q3].
  destruct x1, x2, x3, d1, d2, d3, q1, q2, q3; simpl; try reflexivity.
  f_equal. ring.
Qed.

Lemma local_rotation d p :
  x_axis (local_coordinates d p) = rot_T_vec p (x_axis d) /\
  y_axis (local_coordinates d p) = rot_T_vec p (y_axis d) /\
  z_axis (local_coordinates d p) = rot_T_vec p (z_axis d).
Proof.
  unfold local_coordinates, compose, inv_pose, rot_T_vec, rot_vec.
  destruct (x_axis p) as [[x1 x2] x3], (y_axis p) as [[y1 y2] y3],
           (z_axis p) as [[z1 z2] z3].
  simpl.
  destruct (x_axis d) as [[a1 a2] a3], (y_axis d) as [[b1 b2] b3],
           (z_axis d) as [[c1 c2] c3].
  repeat split; reflexivity.
Qed.

Lemma local_position d p :
  position (local_coordinates d p) =
  rot_T_vec p (vsub (position d) (position p)).
Proof.
  unfold rot_T_vec. rewrite <- !dot_sub.
  unfold local_coordinates, compose, inv_pose, rot_T_vec, rot_vec.
  destruct (x_axis p) as [[x1 x2] x3], (y_axis p) as [[y1 y2] y3],
           (z_axis p) as [[z1 z2] z3].
  simpl.
  destruct (position d) as [[d1 d2] d3]. reflexivity.
Qed.

(** C7: when the frames of the two segments of a joint are stored,
    [transforms] returns, sample by sample, the pose of the distal
    segment in the frame of the proximal one: each axis of its rotation
    is the corresponding distal axis projected on the three proximal
    axes, which is the transpose of the proximal rotation times the
    distal rotation, and its translation is the distal origin taken
    from the proximal origin and projected on the proximal axes. *)
Theorem C7_relative_pose (self : Joint) (fs : FrameSeries) (D P : list pose)
    (HD : lookup fs (axis_frames_name (distal self)) = Some D)
    (HP : lookup fs (axis_frames_name (proximal self)) = Some P) :
  exists T,
    transforms self fs = inr T /\
    (forall j,
       nth_error T j =
       match nth_error D j, nth_error P j with
       | Some d, Some p => Some (local_coordinates d p)
       | _, _ => None
       end) /\
    forall d p,
      x_axis (local_coordinates d p) =
        (dot (x_axis p) (x_axis d), dot (y_axis p) (x_axis d),
         dot (z_axis p) (x_axis d)) /\
      y_axis (local_coordinates d p) =
        (dot (x_axis p) (y_axis d), dot (y_axis p) (y_axis d),
         dot (z_axis p) (y_axis d)) /\
      z_axis (local_coordinates d p) =
        (dot (x_axis p) (z_axis d), dot (y_axis p) (z_axis d),
         dot (z_axis p) (z_axis d)) /\
      position (local_coordinates d p) =
        (dot (x_axis p) (vsub (position d) (position p)),
         dot (y_axis p) (vsub (position d) (position p)),
         dot (z_axis p) (vsub (position d) (position p))).
Proof.
  exists (get_local_coordinates D P).
  split; [apply transforms_lookup; assumption|]. split.
  - intros j. unfold get_local_coordinates. apply nth_error_zip_with_gen.
  - intros d p. destruct (local_rotation d p) as [Hx [Hy Hz]].
    split; [exact Hx|]. split; [exact Hy|]. split; [exact Hz|].
    apply local_position.
Qed.

(** C7 on the right elbow of the sample frames. *)
Lemma C7_relative_pose_witness :
  exists T,
    transforms elbow_joint_right elbow_frames_r = inr T /\
    nth_error T 0 = Some (local_coordinates id_pose id_pose).
Proof.
  destruct (C7_relative_pose elbow_joint_right elbow_frames_r
              [id_pose; nan_pose] [id_pose; nan_pose] eq_refl eq_refl)
    as [T [HT [Hrows _]]].
  exists T. split; [exact HT | exact (Hrows 0%nat)].
Defined.

(** ** Frames from two directions *)

Local Open Scope R_scope.









Local Close Scope R_scope.



